(** * ArchiveFreezer: the tag propagation walk of [main.py]

    A shallow embedding of [parse_freezefile], [apply_tag] and the
    [__main__] driver, over an explicit model of the mounted namespace
    (directory listings and the JSON text of the [.frozen] records) and of
    the S3 tagging service (an oracle plus the trace of the requests sent).

    Python values are modelled as follows.
    - [str] is [string]; a path is the string the program manipulates,
      [os.path.join p f] is [p ++ "/" ++ f], and [Path(..).resolve()] is the
      identity (the namespace holds no symbolic links and paths are
      normalised).
    - a tag dictionary ([Dict[str, str]]) is a [gmap string string]; dict
      equality is map equality.
    - the result of [json.load] is a [json] value; the dictionary [frozen]
      is a [gmap string json].
    - the list [directories] keeps Python's orientation: [append] adds at
      the end and [pop] takes the last element.
    - an exception that leaves [apply_tag] is the outcome [Raise]; the
      recursion is bounded by a number of steps, and [OutOfFuel] is the
      outcome of a run cut short by the bound. Every outcome carries the
      world as the run left it. *)

From stdpp Require Import gmap strings list fin_maps sorting.
From Stdlib Require Import Ascii.

(** ** Python string operations *)

Module Str.

(** [s.startswith(pre)] *)
Definition startswith (s pre : string) : bool := String.prefix pre s.

(** [s[n:]] *)
Fixpoint drop (n : nat) (s : string) : string :=
  match n, s with
  | 0, _ => s
  | S _, EmptyString => EmptyString
  | S n', String _ s' => drop n' s'
  end.

(** [s[:n]] *)
Fixpoint take (n : nat) (s : string) : string :=
  match n, s with
  | 0, _ => EmptyString
  | S _, EmptyString => EmptyString
  | S n', String c s' => String c (take n' s')
  end.

(** [s.split(sep)] for a one-character separator: never empty,
    [''.split(';') == ['']]. *)
Fixpoint split (sep : ascii) (s : string) : list string :=
  match s with
  | EmptyString => [EmptyString]
  | String c s' =>
      if Ascii.eqb c sep then EmptyString :: split sep s'
      else match split sep s' with
           | h :: t => String c h :: t
           | [] => [String c EmptyString]
           end
  end.

(** [c in s] *)
Fixpoint has_char (c : ascii) (s : string) : bool :=
  match s with
  | EmptyString => false
  | String c' s' => Ascii.eqb c' c || has_char c s'
  end.

(** [s.replace(old, new)] for a non-empty [old]: the occurrences are
    found left to right and do not overlap. Each step consumes at least
    one character, hence the bound on the number of steps. *)
Fixpoint replace_go (steps : nat) (old new s : string) : string :=
  match steps with
  | 0 => s
  | S steps' =>
      if String.prefix old s
      then new +:+ replace_go steps' old new (drop (String.length old) s)
      else match s with
           | EmptyString => EmptyString
           | String c s' => String c (replace_go steps' old new s')
           end
  end.

Definition replace (old new s : string) : string :=
  replace_go (S (String.length s)) old new s.

(** [old in s], for strings. *)
Fixpoint contains (old s : string) : bool :=
  String.prefix old s
  || match s with
     | EmptyString => false
     | String _ s' => contains old s'
     end.

End Str.

(** [os.path.join(path, file)] for a relative [file] and a [path] without
    a trailing separator. *)
Definition join (path file : string) : string := path +:+ "/" +:+ file.

(** [q] lies strictly beneath the directory [d]: as the driver tests it,
    [q.startswith(d + os.path.sep)]. *)
Definition beneath (d q : string) : bool := Str.startswith q (d +:+ "/").

(** ** Constants of the module *)

Definition FREEZEFILE_PREFIX : string := ".freeze.".
Definition FROZENFILE : string := ".frozen".
Definition FREEZEFILE_TAGS : gmap string string :=
  {[ "storage-class" := "infrequent-access" ]}.

(** ** JSON values, as [json.load] returns them *)

#[warnings="-register-all"]
Inductive json : Type :=
  | JNull
  | JBool (b : bool)
  | JNum (literal : string)
  | JStr (s : string)
  | JArr (items : list json)
  | JObj (fields : gmap string json).

Global Instance json_inhabited : Inhabited json := populate JNull.

Definition is_object (v : json) : bool :=
  match v with JObj _ => true | _ => false end.

Definition is_string (v : json) : bool :=
  match v with JStr _ => true | _ => false end.

Definition is_string_array (v : json) : bool :=
  match v with JArr items => forallb is_string items | _ => false end.

(** A tag dictionary as the JSON object [json.dump] writes for it. *)
Definition tags_json (tags : gmap string string) : json := JObj (JStr <$> tags).

Definition as_str (v : json) : option string :=
  match v with JStr s => Some s | _ => None end.

(** The tag dictionary a JSON value is equal to, if there is one: an object
    all of whose values are strings. *)
Definition as_tags (v : json) : option (gmap string string) :=
  match v with
  | JObj m =>
      if forallb (λ kv, is_string kv.2) (map_to_list m)
      then Some (omap as_str m) else None
  | _ => None
  end.

(** [tags == v] for a [Dict[str, str]] and a decoded JSON value. *)
Definition tags_eq (tags : gmap string string) (v : json) : bool :=
  match as_tags v with
  | Some t => bool_decide (tags = t)
  | None => false
  end.

(** [v != s] for a decoded JSON value and a [str]. *)
Definition ne_str (v : json) (s : string) : bool :=
  match v with JStr s' => negb (String.eqb s' s) | _ => true end.

(** [file in items] for a [str] and a decoded JSON array. *)
Definition str_in (file : string) (items : list json) : bool :=
  existsb (λ v, negb (ne_str v file)) items.

(** *** [CONFIG_SCHEMA] and [jsonschema.validate] *)

(** A [properties] entry constrains the key only where it is present. *)
Definition property (check : json → bool) (m : gmap string json) (key : string) : bool :=
  match m !! key with Some v => check v | None => true end.

Definition required (m : gmap string json) (keys : list string) : bool :=
  forallb (λ k, bool_decide (is_Some (m !! k))) keys.

(** [true] when [jsonschema.validate(instance, CONFIG_SCHEMA)] returns,
    [false] when it raises. *)
Definition validate (instance : json) : bool :=
  match instance with
  | JObj m =>
      property is_object m "rule-at"
      && property is_object m "freezefile-tags"
      && property is_object m "applied-tags"
      && property is_string_array m "affected-files"
      && required m ["rule-at"; "applied-tags"; "affected-files"; "freezefile-tags"]
  | _ => false
  end.

Definition BASE_CONFIG : gmap string json :=
  {[ "rule-at" := JStr "";
     "applied-tags" := JObj ∅;
     "affected-files" := JArr [];
     "freezefile-tags" := JObj ∅ ]}.

(** ** [parse_freezefile] *)

(** [[x.split('=') for x in freezefile[len(FREEZEFILE_PREFIX):].split(';')]] *)
Definition key_values (freezefile : string) : list (list string) :=
  Str.split "="%char <$> Str.split ";"%char (Str.drop (String.length FREEZEFILE_PREFIX) freezefile).

(** [{x[0]: x[1] for x in key_values}]: [None] is the [IndexError] of
    [x[1]] on a segment that holds no ['=']. *)
Fixpoint dict_of (kvs : list (list string)) (acc : gmap string string)
  : option (gmap string string) :=
  match kvs with
  | [] => Some acc
  | x :: rest =>
      match x !! 0%nat, x !! 1%nat with
      | Some k, Some v => dict_of rest (<[k := v]> acc)
      | _, _ => None
      end
  end.

Definition parse_freezefile (freezefile : string) : option (gmap string string) :=
  dict_of (key_values freezefile) ∅.

(** ** The mounted namespace *)

(** [ls] maps every directory to the names [os.listdir] returns for it, in
    that order; a path is a directory exactly when [ls] has an entry for it.
    [json_at] maps a file to the value [json.load] decodes from it; a file
    whose text is not JSON, or that cannot be read, has no entry. *)
Record filesystem : Type := {
  ls : gmap string (list string);
  json_at : gmap string json
}.

(** [os.path.isdir] *)
Definition isdir (fs : filesystem) (p : string) : bool :=
  bool_decide (is_Some (ls fs !! p)).

Definition listed (fs : filesystem) (path name : string) : bool :=
  match ls fs !! path with
  | Some names => bool_decide (name ∈ names)
  | None => false
  end.

(** [[x.name for x in Path(path).glob(f'{FREEZEFILE_PREFIX}*')]]: the names
    of [path] that carry the prefix, in listing order; nothing when [path]
    is not a directory. *)
Definition glob_freezefiles (fs : filesystem) (path : string) : list string :=
  List.filter (λ name, Str.startswith name FREEZEFILE_PREFIX) (default [] (ls fs !! path)).

(** [open(os.path.join(path, name))] followed by [json.load]: [None] when
    either raises. *)
Definition load_json (fs : filesystem) (path name : string) : option json :=
  if listed fs path name && negb (isdir fs (join path name))
  then json_at fs !! join path name
  else None.

(** [open(os.path.join(path, name), 'wt')] followed by [json.dump]: the
    file is created when it is missing; [None] when [open] raises. *)
Definition write_json (fs : filesystem) (path name : string) (v : json)
  : option filesystem :=
  match ls fs !! path with
  | Some names =>
      if isdir fs (join path name) then None
      else Some {| ls := <[path := if bool_decide (name ∈ names) then names
                                   else names ++ [name]]> (ls fs);
                   json_at := <[join path name := v]> (json_at fs) |}
  | None => None
  end.

(** [os.remove(os.path.join(path, name))]: [None] when it raises (no such
    file, or a directory). *)
Definition remove (fs : filesystem) (path name : string) : option filesystem :=
  match ls fs !! path with
  | Some names =>
      if bool_decide (name ∈ names) && negb (isdir fs (join path name))
      then Some {| ls := <[path := List.filter (λ n, negb (String.eqb n name)) names]> (ls fs);
                   json_at := delete (join path name) (json_at fs) |}
      else None
  | None => None
  end.

(** ** The tagging service *)

(** The arguments of one [put_object_tagging] request. *)
Record tagging : Type := {
  Bucket : string;
  Key : string;
  TagSet : list (string * string)
}.

(** The service decides each request from the requests it has seen:
    [true] when [put_object_tagging] returns, [false] when it raises. *)
Definition service : Type := list tagging → tagging → bool.

(** One request as the walk issued it: the local file it was issued for,
    what was sent, and whether it went through. *)
Record event : Type := {
  file_abs_path : string;
  request : tagging;
  ok : bool
}.

Record world : Type := {
  fs : filesystem;
  trace : list event
}.

(** [os.environ] *)
Record environ : Type := {
  S3_BUCKET_NAME : string;
  S3_MOUNT_PATH : string
}.

(** ** [apply_tag] *)

Inductive outcome (A : Type) : Type :=
  | Return (a : A) (w : world)
  | Raise (w : world)
  | OutOfFuel (w : world).
Global Arguments Return {A} a w.
Global Arguments Raise {A} w.
Global Arguments OutOfFuel {A} w.

(** The triple [apply_tag] returns: [state, processed_files, failed_files]. *)
Definition result : Type := bool * list string * list string.

(** The local variables of [apply_tag] that the loops update. *)
Record locals : Type := {
  directories : list string;
  processed_files : list string;
  failed_files : list string;
  state : bool;
  frozen : gmap string json
}.

Definition set_directories (d : list string) (L : locals) : locals :=
  {| directories := d; processed_files := processed_files L;
     failed_files := failed_files L; state := state L; frozen := frozen L |}.
Definition set_processed_files (p : list string) (L : locals) : locals :=
  {| directories := directories L; processed_files := p;
     failed_files := failed_files L; state := state L; frozen := frozen L |}.
Definition set_failed_files (f : list string) (L : locals) : locals :=
  {| directories := directories L; processed_files := processed_files L;
     failed_files := f; state := state L; frozen := frozen L |}.
Definition set_state (s : bool) (L : locals) : locals :=
  {| directories := directories L; processed_files := processed_files L;
     failed_files := failed_files L; state := s; frozen := frozen L |}.
Definition set_frozen (fz : gmap string json) (L : locals) : locals :=
  {| directories := directories L; processed_files := processed_files L;
     failed_files := failed_files L; state := state L; frozen := fz |}.

(** [directories.pop()]: the list without its last element, and that
    element. *)
Fixpoint pop {A : Type} (l : list A) : option (list A * A) :=
  match l with
  | [] => None
  | x :: l' =>
      match pop l' with
      | None => Some ([], x)
      | Some (init, last) => Some (x :: init, last)
      end
  end.

(** [frozen['affected-files']] *)
Definition affected_files (fz : gmap string json) : list json :=
  match fz !! "affected-files" with
  | Some (JArr items) => items
  | _ => []
  end.

(** The [try] block of lines 85-88: the decoded record when it is there,
    decodes and passes the schema. *)
Definition try_load (fs : filesystem) (path : string) : option (gmap string json) :=
  match load_json fs path FROZENFILE with
  | Some (JObj m) => if validate (JObj m) then Some m else None
  | _ => None
  end.

(** The [except] branch of lines 90-91. *)
Definition empty_config : gmap string json :=
  <["affected-files" := JArr []]> BASE_CONFIG.

(** Lines 85-96: [None] is the [return True, [], []] of line 96. *)
Definition load_frozen (fs : filesystem) (path rule_path : string) (L : locals)
  : option locals :=
  match try_load fs path with
  | None => Some (set_state false (set_frozen empty_config L))
  | Some m =>
      if ne_str (m !!! "rule-at") rule_path then None
      else Some (set_frozen m L)
  end.

(** Lines 136-140. *)
Definition saved_config (rule_path : string) (tags : gmap string string)
    (fz : gmap string json) : gmap string json :=
  <["freezefile-tags" := tags_json FREEZEFILE_TAGS]>
    (<["applied-tags" := tags_json tags]> (<["rule-at" := JStr rule_path]> fz)).

Definition save_frozen (fs : filesystem) (path rule_path : string)
    (tags : gmap string string) (fz : gmap string json) : option filesystem :=
  write_json fs path FROZENFILE (JObj (saved_config rule_path tags fz)).

Section Walk.

Context (env : environ) (s3 : service).

(** Lines 109-115: [(using_tag, old_tag)]. *)
Definition classify (tags : gmap string string) (fz : gmap string json)
    (file : string) : gmap string string * json :=
  if Str.startswith file FREEZEFILE_PREFIX || String.eqb file FROZENFILE
  then (FREEZEFILE_TAGS, fz !!! "freezefile-tags")
  else (tags, fz !!! "applied-tags").

(** Line 120 and the request of lines 123-127. *)
Definition tagging_request (tags : gmap string string) (file_abs_path : string)
  : tagging :=
  {| Bucket := S3_BUCKET_NAME env;
     Key := Str.replace (S3_MOUNT_PATH env +:+ "/") "" file_abs_path;
     TagSet := map_to_list tags |}.

(** Lines 109-134, for an entry that is neither hidden nor a directory. *)
Definition tag_file (path : string) (tags : gmap string string) (file : string)
    (L : locals) (tr : list event) : locals * list event :=
  let abs := join path file in
  let '(using_tag, old_tag) := classify tags (frozen L) file in
  if tags_eq using_tag old_tag && str_in file (affected_files (frozen L))
  then (L, tr)
  else
    let req := tagging_request tags abs in
    if s3 (request <$> tr) req
    then
      let L := set_processed_files (processed_files L ++ [abs]) L in
      let L := if bool_decide (using_tag = tags)
               then set_frozen (<["affected-files" :=
                                   JArr (affected_files (frozen L) ++ [JStr file])]>
                                  (frozen L)) L
               else L in
      (L, tr ++ [{| file_abs_path := abs; request := req; ok := true |}])
    else
      (set_failed_files (failed_files L ++ [abs]) (set_state false L),
       tr ++ [{| file_abs_path := abs; request := req; ok := false |}]).

(** The body of the [for] loop, lines 99-134. *)
Definition for_body (fs : filesystem) (path : string) (tags : gmap string string)
    (acc : locals * list event) (file : string) : locals * list event :=
  if Str.startswith file "." then acc
  else if isdir fs (join path file)
  then (set_directories (directories acc.1 ++ [join path file]) acc.1, acc.2)
  else tag_file path tags file acc.1 acc.2.

(** Lines 84-140, the visit of one directory. [Return None] is the
    [return True, [], []] of line 96; [Return (Some L)] falls through to
    the next iteration of the [while] loop. There is no recursion here,
    and [OutOfFuel] is never the outcome. *)
Definition visit (path rule_path : string) (tags : gmap string string)
    (L : locals) (w : world) : outcome (option locals) :=
  match load_frozen (fs w) path rule_path L with
  | None => Return None w
  | Some L =>
      match ls (fs w) !! path with
      | None => Raise w
      | Some names =>
          let '(L, tr) := foldl (for_body (fs w) path tags) (L, trace w) names in
          match save_frozen (fs w) path rule_path tags (frozen L) with
          | Some fs' => Return (Some L) {| fs := fs'; trace := tr |}
          | None => Raise {| fs := fs w; trace := tr |}
          end
      end
  end.

(** The locals of a fresh call, lines 59-62. *)
Definition entry (target_path : string) : locals :=
  {| directories := [target_path]; processed_files := [];
     failed_files := []; state := true; frozen := ∅ |}.

(** Lines 78-80: the result of the nested call is merged. *)
Definition merge (L : locals) (ret : result) : locals :=
  set_failed_files (failed_files L ++ ret.2)
    (set_processed_files (processed_files L ++ ret.1.2)
       (set_state (state L && ret.1.1) L)).

(** The [while] loop of lines 66-140. Each iteration and each nested
    call spends one unit of [fuel]. *)
Fixpoint loop (fuel : nat) (target_path rule_path : string)
    (tags : gmap string string) (L : locals) (w : world) : outcome result :=
  match fuel with
  | 0 => OutOfFuel w
  | S fuel' =>
      match pop (directories L) with
      | None => Return (state L, processed_files L, failed_files L) w
      | Some (rest, path) =>
          let L := set_directories rest L in
          let freezefiles :=
            if bool_decide (path = target_path) then []
            else glob_freezefiles (fs w) path in
          match freezefiles with
          | freezefile :: _ =>
              match parse_freezefile freezefile with
              | None => Raise w
              | Some parsed_tag =>
                  match loop fuel' path rule_path parsed_tag (entry path) w with
                  | Return ret w' =>
                      match remove (fs w') path freezefile with
                      | Some fs' =>
                          loop fuel' target_path rule_path tags (merge L ret)
                            {| fs := fs'; trace := trace w' |}
                      | None => Raise w'
                      end
                  | Raise w' => Raise w'
                  | OutOfFuel w' => OutOfFuel w'
                  end
              end
          | [] =>
              match visit path rule_path tags L w with
              | Return None w' => Return (true, [], []) w'
              | Return (Some L) w' => loop fuel' target_path rule_path tags L w'
              | Raise w' => Raise w'
              | OutOfFuel w' => OutOfFuel w'
              end
          end
      end
  end.

Definition apply_tag (fuel : nat) (target_path rule_path : string)
    (tags : gmap string string) (w : world) : outcome result :=
  loop fuel target_path rule_path tags (entry target_path) w.

End Walk.

(** ** The driver, lines 144-164 *)

(** [Path(root).rglob(f'{FREEZEFILE_PREFIX}*')]: every directory below
    [root], [root] first and hidden ones included, gives its matches; a
    match is kept as the pair of its [parent] and its [name]. *)
Fixpoint rglob_freezefiles (fuel : nat) (fs : filesystem) (root : string)
  : option (list (string * string)) :=
  match fuel with
  | 0 => None
  | S fuel' =>
      match ls fs !! root with
      | None => Some []
      | Some names =>
          let here := (λ name, (root, name)) <$> glob_freezefiles fs root in
          let subdirs := List.filter (λ name, isdir fs (join root name)) names in
          below ← mapM (λ name, rglob_freezefiles fuel' fs (join root name)) subdirs;
          Some (here ++ concat below)
      end
  end.

(** [sorted(xs, key=lambda x: len(x))]: a stable sort. *)
Fixpoint insert_by_len (x : string) (sorted : list string) : list string :=
  match sorted with
  | [] => [x]
  | y :: rest =>
      if (String.length x <=? String.length y)%nat then x :: y :: rest
      else y :: insert_by_len x rest
  end.

Definition sorted_by_len (xs : list string) : list string :=
  foldr insert_by_len [] xs.

(** Lines 147-152. *)
Definition select_roots (candidates : list string) : list string :=
  foldl (λ tgt_folders tgt_folder,
           if existsb (λ x, Str.startswith tgt_folder (x +:+ "/")) tgt_folders
           then tgt_folders
           else tgt_folders ++ [tgt_folder])
        [] candidates.

Definition tgt_folders (paths : list (string * string)) : list string :=
  select_roots (sorted_by_len (fst <$> paths)).

(** The text of line 161. *)
Definition message (tgt_folder : string) (state : bool) : string :=
  "Freezing path "
  +:+ (if (String.length tgt_folder <=? 4000)%nat then tgt_folder
       else Str.take 3997 tgt_folder +:+ "...")
  +:+ " " +:+ (if state then "Succeeded" else "Failed").

Section Driver.

Context (env : environ) (s3 : service).

(** Lines 154-162: the messages sent to the chat are collected. *)
Fixpoint run_roots (fuel : nat) (roots : list string) (sent : list string)
    (w : world) : outcome (list string) :=
  match roots with
  | [] => Return sent w
  | tgt_folder :: rest =>
      match glob_freezefiles (fs w) tgt_folder with
      | [] => Raise w
      | freezefile :: _ =>
          match parse_freezefile freezefile with
          | None => Raise w
          | Some tag =>
              match apply_tag env s3 fuel tgt_folder tgt_folder tag w with
              | Return ret w' =>
                  match remove (fs w') tgt_folder freezefile with
                  | Some fs' =>
                      run_roots fuel rest (sent ++ [message tgt_folder ret.1.1])
                        {| fs := fs'; trace := trace w' |}
                  | None => Raise w'
                  end
              | Raise w' => Raise w'
              | OutOfFuel w' => OutOfFuel w'
              end
          end
      end
  end.

Definition main (fuel : nat) (w : world) : outcome (list string) :=
  match rglob_freezefiles fuel (fs w) (S3_MOUNT_PATH env) with
  | None => OutOfFuel w
  | Some freeze_paths => run_roots fuel (tgt_folders freeze_paths) [] w
  end.

End Driver.

(** The world an outcome leaves behind. *)
Definition final_world {A : Type} (o : outcome A) : world :=
  match o with
  | Return _ w => w
  | Raise w => w
  | OutOfFuel w => w
  end.

(** The local files the requests of a trace were issued for. *)
Definition requested (tr : list event) : list string := file_abs_path <$> tr.

(** No name of any listing holds a path separator. *)
Definition names_ok (fs : filesystem) : bool :=
  forallb (λ entry, forallb (λ name, negb (Str.has_char "/"%char name)) entry.2)
          (map_to_list (ls fs)).

Definition is_freezefile (name : string) : bool :=
  Str.startswith name FREEZEFILE_PREFIX.

(** The names of a listing that are not directive markers. *)
Definition ordinary (names : list string) : list string :=
  List.filter (λ n, negb (is_freezefile n)) names.

(** What a walk may have done between [w] and [w'] without touching the
    directory [D]: it sent no request for a file beneath [D], changed no
    listing and no file beneath [D], and took nothing but directive markers
    out of the listing of [D] itself. *)
Record spared (D : string) (w w' : world) : Prop := {
  spared_trace :
    ∃ evs, trace w' = trace w ++ evs
           ∧ Forall (λ e, beneath D (file_abs_path e) = false) evs;
  spared_ls :
    ∀ q, beneath D q = true → ls (fs w') !! q = ls (fs w) !! q;
  spared_json :
    ∀ q, beneath D q = true →
         (∀ n, q = join D n → is_freezefile n = false) →
         json_at (fs w') !! q = json_at (fs w) !! q;
  spared_here :
    ∀ names, ls (fs w) !! D = Some names →
             ∃ names', ls (fs w') !! D = Some names'
                       ∧ ordinary names' = ordinary names
                       ∧ names' ⊆ names
}.

(** A name that the guard of line 100 lets through. *)
Definition visible (name : string) : bool := negb (Str.startswith name ".").

(** What a walk may have done between [w] and [w']: the requests it sent
    were for visible entries of listed directories that are not
    directories themselves; the directories are the same and so are their
    visible entries, the only name a listing gains is the record and the
    only names it loses are directive markers; the only files whose
    content differs are records and directive markers. *)
Record walked (w w' : world) : Prop := {
  walked_trace :
    ∃ evs, trace w' = trace w ++ evs
           ∧ Forall (λ e, ∃ path names name,
                        ls (fs w) !! path = Some names
                        ∧ name ∈ names
                        ∧ visible name = true
                        ∧ isdir (fs w) (join path name) = false
                        ∧ file_abs_path e = join path name) evs;
  walked_ls :
    ∀ path,
      match ls (fs w) !! path, ls (fs w') !! path with
      | Some names, Some names' =>
          List.filter visible names' = List.filter visible names
          ∧ (∀ n, n ∈ names' → n ∈ names ∨ n = FROZENFILE)
          ∧ (∀ n, n ∈ names → n ∈ names' ∨ is_freezefile n = true)
      | None, None => True
      | _, _ => False
      end;
  walked_json :
    ∀ q, json_at (fs w') !! q = json_at (fs w) !! q
         ∨ ∃ path name, q = join path name
                        ∧ (name = FROZENFILE ∨ is_freezefile name = true)
}.

(** The visible sub-directories of [path], as lines 104-106 push them. *)
Definition subdirs (fs : filesystem) (path : string) : list string :=
  join path <$> List.filter
    (λ n, negb (Str.startswith n ".") && isdir fs (join path n))
    (default [] (ls fs !! path)).

(** No chain of visible sub-directories below [path] is longer than
    [depth]. *)
Fixpoint shallow (fs : filesystem) (depth : nat) (path : string) : bool :=
  match depth with
  | 0 => match subdirs fs path with [] => true | _ => false end
  | S depth' => forallb (shallow fs depth') (subdirs fs path)
  end.

(** A number of steps that is enough for the walk of [path]: two for the
    directory itself and those of its visible sub-directories. *)
Fixpoint steps (fs : filesystem) (depth : nat) (path : string) : nat :=
  match depth with
  | 0 => 2
  | S depth' => 2 + sum_list (steps fs depth' <$> subdirs fs path)
  end.

(** The outcome of a run that was not cut short. *)
Definition finished {A : Type} (o : outcome A) : bool :=
  match o with OutOfFuel _ => false | _ => true end.

(** ** Concrete namespaces *)

Module Demo.

Definition env : environ := {| S3_BUCKET_NAME := "archive"; S3_MOUNT_PATH := "/m" |}.

Definition always_ok : service := λ _ _, true.

(** A service that refuses the object [key] and accepts every other. *)
Definition refuses (key : string) : service :=
  λ _ req, negb (String.eqb (Key req) key).

Definition start (fs : filesystem) : world := {| fs := fs; trace := [] |}.

Definition cold : gmap string string := {[ "tier" := "cold" ]}.
Definition hot : gmap string string := {[ "tier" := "hot" ]}.

(** A record that passes [CONFIG_SCHEMA]: its [rule-at] is an object. *)
Definition foreign_fields : gmap string json :=
  {[ "rule-at" := JObj {[ "path" := JStr "/m/other" ]};
     "applied-tags" := tags_json hot;
     "affected-files" := JArr [JStr "z.txt"];
     "freezefile-tags" := tags_json FREEZEFILE_TAGS ]}.

Definition foreign_record : json := JObj foreign_fields.



(** [/m/a] holds a file and two directories; [/m/a/c] has a valid record. *)
Definition siblings : filesystem :=
  {| ls := {[ "/m/a" := ["x.txt"; "b"; "c"];
              "/m/a/b" := ["y.txt"];
              "/m/a/c" := [".frozen"; "z.txt"] ]};
     json_at := {[ "/m/a/c/.frozen" := foreign_record ]} |}.

(** [/m/a/d] holds a directive of its own. *)
Definition nested : filesystem :=
  {| ls := {[ "/m/a" := ["d"];
              "/m/a/d" := [".freeze.tier=hot"; "y.txt"] ]};
     json_at := ∅ |}.

(** One directory with one file and no record. *)
Definition single : filesystem :=
  {| ls := {[ "/m/a" := ["x.txt"] ]}; json_at := ∅ |}.

(** [/m/a/d] holds a directive and a valid record. *)
Definition owned : filesystem :=
  {| ls := {[ "/m/a" := ["d"];
              "/m/a/d" := [".freeze.tier=hot"; ".frozen"; "z.txt"] ]};
     json_at := {[ "/m/a/d/.frozen" := foreign_record ]} |}.

(** [/m/a] holds two files and a directory with a valid record. *)
Definition partial : filesystem :=
  {| ls := {[ "/m/a" := ["f"; "g"; "c"];
              "/m/a/c" := [".frozen"] ]};
     json_at := {[ "/m/a/c/.frozen" := foreign_record ]} |}.

(** [/m/a] holds two directives at once. *)
Definition twice : filesystem :=
  {| ls := {[ "/m" := ["a"];
              "/m/a" := [".freeze.tier=cold"; ".freeze.tier=hot"; "x.txt"] ]};
     json_at := ∅ |}.



(** [/m/a] was walked before under another tag set: the record written then
    lists [x.txt]. *)
Definition rerun : filesystem :=
  {| ls := {[ "/m/a" := [".frozen"; "x.txt"; "y.txt"] ]};
     json_at := {[ "/m/a/.frozen" :=
                     JObj (saved_config "/m/a" hot
                             (<["affected-files" := JArr [JStr "x.txt"]]> BASE_CONFIG)) ]} |}.

(** [/m/a] holds a directive, and [/m/a/d] one whose name has no [=]. *)
Definition malformed : filesystem :=
  {| ls := {[ "/m" := ["a"];
              "/m/a" := [".freeze.tier=cold"; "x.txt"; "d"];
              "/m/a/d" := [".freeze.cold"; "y.txt"] ]};
     json_at := ∅ |}.

(** [/m/a] holds a directive, a file and a directory. *)
Definition nested_root : filesystem :=
  {| ls := {[ "/m" := ["a"];
              "/m/a" := [".freeze.tier=cold"; "x.txt"; "sub"];
              "/m/a/sub" := ["y.txt"] ]};
     json_at := ∅ |}.

End Demo.

(** * Properties *)

(** ** Strings *)

Lemma app_cons (c : ascii) (a b : string) : String c a +:+ b = String c (a +:+ b).
Proof. reflexivity. Qed.

Lemma app_empty (b : string) : "" +:+ b = b.
Proof. reflexivity. Qed.

Lemma prefix_cons (a b : ascii) (p s : string) :
  String.prefix (String a p) (String b s)
  = if ascii_dec a b then String.prefix p s else false.
Proof. reflexivity. Qed.

Lemma prefix_empty (s : string) : String.prefix "" s = true.
Proof. by destruct s. Qed.

Lemma prefix_app (p r : string) : String.prefix p (p +:+ r) = true.
Proof.
  induction p as [|c p IH].
  - apply prefix_empty.
  - rewrite app_cons, prefix_cons. by destruct (ascii_dec c c).
Qed.

Lemma prefix_inv (p s : string) :
  String.prefix p s = true → ∃ r, s = p +:+ r.
Proof.
  revert s. induction p as [|c p IH]; intros s H.
  - by exists s.
  - destruct s as [|d s]; [discriminate H|].
    rewrite prefix_cons in H.
    destruct (ascii_dec c d) as [->|]; [|discriminate].
    destruct (IH _ H) as [r ->]. by exists r.
Qed.

Lemma app_assoc_str (a b c : string) : (a +:+ b) +:+ c = a +:+ (b +:+ c).
Proof.
  induction a as [|x a IH]; rewrite ?app_cons, ?app_empty; [done|].
  by rewrite IH.
Qed.

Lemma length_app_str (a b : string) :
  String.length (a +:+ b) = String.length a + String.length b.
Proof.
  induction a as [|x a IH]; rewrite ?app_cons, ?app_empty; simpl; [done|].
  by rewrite IH.
Qed.

Lemma has_char_app (c : ascii) (a b : string) :
  Str.has_char c (a +:+ b) = Str.has_char c a || Str.has_char c b.
Proof.
  induction a as [|x a IH]; rewrite ?app_cons, ?app_empty; simpl; [done|].
  rewrite IH. by rewrite orb_assoc.
Qed.

Lemma freezefile_hidden (name : string) :
  is_freezefile name = true → Str.startswith name "." = true.
Proof.
  unfold is_freezefile, Str.startswith. intros [r ->]%prefix_inv.
  apply (prefix_app "." ("freeze." +:+ r)).
Qed.

Lemma frozenfile_hidden : Str.startswith FROZENFILE "." = true.
Proof. reflexivity. Qed.

Lemma join_inj (p n n' : string) : join p n = join p n' → n = n'.
Proof.
  unfold join. intros H. apply (inj (String.app p)) in H.
  by apply (inj (String.app "/")) in H.
Qed.

Lemma join_inj_dir (p q n : string) : join p n = join q n → p = q.
Proof.
  unfold join. revert q.
  induction p as [|c p IH]; intros [|d q] H; rewrite ?app_cons, ?app_empty in H.
  - done.
  - exfalso. apply (f_equal String.length) in H. simpl in H.
    rewrite !length_app_str in H. simpl in H. lia.
  - exfalso. apply (f_equal String.length) in H. simpl in H.
    rewrite !length_app_str in H. simpl in H. lia.
  - injection H as -> H. f_equal. by apply IH.
Qed.

Lemma beneath_join (d n : string) : beneath d (join d n) = true.
Proof.
  unfold beneath, Str.startswith, join.
  rewrite <- app_assoc_str. apply prefix_app.
Qed.

Lemma beneath_longer (d q : string) :
  beneath d q = true → String.length d < String.length q.
Proof.
  unfold beneath, Str.startswith. intros [r ->]%prefix_inv.
  rewrite !length_app_str. simpl. lia.
Qed.

Lemma beneath_irrefl (d : string) : beneath d d = false.
Proof.
  destruct (beneath d d) eqn:H; [|done].
  apply beneath_longer in H. lia.
Qed.

Lemma beneath_asym (d q : string) : beneath d q = true → beneath q d = false.
Proof.
  intros H%beneath_longer. destruct (beneath q d) eqn:H'; [|done].
  apply beneath_longer in H'. lia.
Qed.

(** A prefix ending in the separator, inside a name: the name holds it. *)
Lemma prefix_sep_has_char (x n : string) :
  String.prefix (x +:+ "/") n = true → Str.has_char "/" n = true.
Proof.
  intros [r ->]%prefix_inv. rewrite !has_char_app. simpl.
  by rewrite orb_true_r.
Qed.

(** The parent of a path beneath [d] is [d] or lies beneath [d]. *)
Lemma beneath_join_inv (d p n : string) :
  Str.has_char "/" n = false →
  beneath d (join p n) = true → p = d ∨ beneath d p = true.
Proof.
  unfold beneath, Str.startswith, join. intros Hn.
  revert p. induction d as [|c d IH]; intros [|x p] H;
    rewrite ?app_cons, ?app_empty in *.
  - by left.
  - rewrite prefix_cons in *.
    destruct (ascii_dec "/" x) as [<-|]; [|done]. right.
    by rewrite prefix_empty.
  - exfalso. rewrite prefix_cons in H.
    destruct (ascii_dec c "/") as [->|]; [|done].
    apply prefix_sep_has_char in H. congruence.
  - rewrite prefix_cons in *.
    destruct (ascii_dec c x) as [->|]; [|done].
    destruct (IH _ H) as [->|?]; [by left|by right].
Qed.

(** ** Records and the schema *)

Lemma validate_rule_at (m : gmap string json) :
  validate (JObj m) = true → ∃ o, m !! "rule-at" = Some (JObj o).
Proof.
  unfold validate, property, required. simpl.
  rewrite !andb_true_iff. intros [[[[Hp _] _] _] [Hr _]].
  apply bool_decide_eq_true in Hr as [v Hv]. rewrite Hv in Hp |- *.
  destruct v; try discriminate. by eexists.
Qed.

(** A record that passes the schema never has the rule path, a [str], as
    its [rule-at]. *)
Lemma valid_conflicts (m : gmap string json) (rule_path : string) :
  validate (JObj m) = true → ne_str (m !!! "rule-at") rule_path = true.
Proof.
  intros [o Ho]%validate_rule_at.
  by rewrite (lookup_total_correct _ _ _ Ho).
Qed.

(** What [apply_tag] writes does not pass the schema it reads with. *)
Lemma saved_config_invalid (rule_path : string) (tags : gmap string string)
    (fz : gmap string json) :
  validate (JObj (saved_config rule_path tags fz)) = false.
Proof.
  destruct (validate _) eqn:H; [|done].
  apply validate_rule_at in H as [o Ho]. unfold saved_config in Ho.
  rewrite lookup_insert_ne, lookup_insert_ne, lookup_insert_eq in Ho by done.
  discriminate.
Qed.

Lemma try_load_Some (fs : filesystem) (path : string) (m : gmap string json) :
  try_load fs path = Some m →
  load_json fs path FROZENFILE = Some (JObj m) ∧ validate (JObj m) = true.
Proof.
  unfold try_load. destruct (load_json fs path FROZENFILE) as [[]|]; try done.
  destruct (validate _) eqn:Hv; [|done]. by intros [= ->].
Qed.

(** The walk goes on past lines 85-96 only from the empty record. *)
Lemma load_frozen_Some (fs : filesystem) (path rule_path : string) (L L' : locals) :
  load_frozen fs path rule_path L = Some L' →
  try_load fs path = None ∧ L' = set_state false (set_frozen empty_config L).
Proof.
  unfold load_frozen. destruct (try_load fs path) as [m|] eqn:Hm.
  - apply try_load_Some in Hm as [_ Hv].
    by rewrite (valid_conflicts _ rule_path Hv).
  - by intros [= <-].
Qed.

Lemma load_frozen_None (fs : filesystem) (path rule_path : string) (L : locals) :
  load_frozen fs path rule_path L = None ↔ is_Some (try_load fs path).
Proof.
  unfold load_frozen. destruct (try_load fs path) as [m|] eqn:Hm.
  - apply try_load_Some in Hm as [_ Hv].
    rewrite (valid_conflicts _ rule_path Hv). split; eauto.
  - split; [done|]. by intros [? ?].
Qed.


Lemma missing_affected_files_invalid (m : gmap string json) :
  m !! "affected-files" = None → validate (JObj m) = false.
Proof.
  intros H. unfold validate, required. simpl. rewrite H.
  rewrite (bool_decide_eq_false_2 (is_Some None)) by (by intros [? ?]).
  by rewrite !andb_false_r.
Qed.

(** ** The [for] loop *)

Lemma foldl_invariant {A B : Type} (f : A → B → A) (P : list B → A → Prop)
    (l : list B) (a : A) :
  P [] a →
  (∀ seen x rest a, l = seen ++ x :: rest → P seen a → P (seen ++ [x]) (f a x)) →
  P l (foldl f a l).
Proof.
  intros H0 Hstep.
  enough (∀ rest seen a, l = seen ++ rest → P seen a → P (seen ++ rest) (foldl f a rest))
    as H by (apply (H l [] a); done).
  induction rest as [|x rest IH]; intros seen a' Hl Hp; simpl.
  - by rewrite app_nil_r.
  - rewrite (cons_middle x seen rest), app_assoc. apply IH.
    + by rewrite <- app_assoc.
    + by eapply Hstep.
Qed.

Section ForLoop.

Context (env : environ) (s3 : service).

Lemma for_body_hidden (fs : filesystem) (path : string) (tags : gmap string string)
    (acc : locals * list event) (file : string) :
  Str.startswith file "." = true → for_body env s3 fs path tags acc file = acc.
Proof. unfold for_body. by intros ->. Qed.

Lemma visible_not_marker (file : string) :
  Str.startswith file "." = false →
  Str.startswith file FREEZEFILE_PREFIX || String.eqb file FROZENFILE = false.
Proof.
  intros Hv. apply orb_false_iff. split.
  - destruct (Str.startswith file FREEZEFILE_PREFIX) eqn:H; [|done].
    apply freezefile_hidden in H. congruence.
  - destruct (String.eqb file FROZENFILE) eqn:H; [|done].
    apply String.eqb_eq in H as ->. by rewrite frozenfile_hidden in Hv.
Qed.

(** Past the guard of line 100, the class of a file is always the
    ordinary one. *)
Lemma classify_visible (tags : gmap string string) (fz : gmap string json)
    (file : string) :
  Str.startswith file "." = false →
  classify tags fz file = (tags, fz !!! "applied-tags").
Proof. intros H. unfold classify. by rewrite (visible_not_marker _ H). Qed.

(** One file past the guards: either it is skipped, or one request is
    sent for it and its outcome is recorded. *)
Lemma tag_file_cases (path : string) (tags : gmap string string) (file : string)
    (L : locals) (tr : list event) :
  Str.startswith file "." = false →
  let old := frozen L !!! "applied-tags" in
  let seen := str_in file (affected_files (frozen L)) in
  let req := tagging_request env tags (join path file) in
  tag_file env s3 path tags file L tr =
    if tags_eq tags old && seen then (L, tr)
    else if s3 (request <$> tr) req
    then (set_frozen (<["affected-files" :=
                         JArr (affected_files (frozen L) ++ [JStr file])]> (frozen L))
            (set_processed_files (processed_files L ++ [join path file]) L),
          tr ++ [{| file_abs_path := join path file; request := req; ok := true |}])
    else (set_failed_files (failed_files L ++ [join path file]) (set_state false L),
          tr ++ [{| file_abs_path := join path file; request := req; ok := false |}]).
Proof.
  intros Hv. unfold tag_file. rewrite (classify_visible _ _ _ Hv). simpl.
  destruct (tags_eq _ _ && _); [done|].
  destruct (s3 _ _); [|done].
  by rewrite bool_decide_eq_true_2.
Qed.

End ForLoop.

(** ** Frames of the file operations *)

Lemma names_ok_spec (fs : filesystem) :
  names_ok fs = true ↔
  ∀ p names n, ls fs !! p = Some names → n ∈ names → Str.has_char "/" n = false.
Proof.
  unfold names_ok. rewrite forallb_forall. split.
  - intros H p names n Hp Hn.
    specialize (H (p, names)). simpl in H.
    rewrite forallb_forall in H.
    apply negb_true_iff, H.
    + apply list_elem_of_In. by apply elem_of_map_to_list.
    + by apply list_elem_of_In.
  - intros H [p names] Hin%list_elem_of_In%elem_of_map_to_list. simpl.
    apply forallb_forall. intros n Hn%list_elem_of_In.
    apply negb_true_iff. eauto.
Qed.

Lemma ordinary_remove (name : string) (names : list string) :
  is_freezefile name = true →
  ordinary (List.filter (λ n, negb (String.eqb n name)) names) = ordinary names.
Proof.
  intros Hm. unfold ordinary. induction names as [|x names IH]; simpl; [done|].
  destruct (String.eqb x name) eqn:Hx; simpl.
  - apply String.eqb_eq in Hx as ->. by rewrite Hm.
  - by rewrite IH.
Qed.

Lemma filter_subseteq {A : Type} (f : A → bool) (l : list A) : List.filter f l ⊆ l.
Proof.
  intros x Hx%list_elem_of_In%filter_In. apply list_elem_of_In. tauto.
Qed.

Lemma spared_refl (D : string) (w : world) : spared D w w.
Proof.
  split; try done.
  - exists []. by rewrite app_nil_r.
  - intros names ->. by exists names.
Qed.

Lemma spared_trans (D : string) (w1 w2 w3 : world) :
  spared D w1 w2 → spared D w2 w3 → spared D w1 w3.
Proof.
  intros [[e1 [He1 Hf1]] Hl1 Hj1 Hh1] [[e2 [He2 Hf2]] Hl2 Hj2 Hh2]. split.
  - exists (e1 ++ e2). split.
    + by rewrite He2, He1, app_assoc.
    + by apply Forall_app.
  - intros q Hq. by rewrite Hl2, Hl1.
  - intros q Hq Hn. by rewrite Hj2, Hj1.
  - intros names H1. destruct (Hh1 _ H1) as (names2 & H2 & Ho2 & Hs2).
    destruct (Hh2 _ H2) as (names3 & H3 & Ho3 & Hs3).
    exists names3. split; [done|]. split; [congruence|]. by etrans.
Qed.

(** Sending requests for files that are not beneath [D] spares [D]. *)
Lemma spared_requests (D : string) (w : world) (evs : list event) :
  Forall (λ e, beneath D (file_abs_path e) = false) evs →
  spared D w {| fs := fs w; trace := trace w ++ evs |}.
Proof.
  intros H. split; simpl; try done.
  - by exists evs.
  - intros names ->. by exists names.
Qed.

Section Frames.

Context (D : string).

(** [os.remove] of a directive marker, in a directory that is not beneath
    [D]. *)
Lemma remove_spared (w : world) (path name : string) (fs' : filesystem) :
  names_ok (fs w) = true →
  remove (fs w) path name = Some fs' →
  is_freezefile name = true →
  beneath D path = false →
  names_ok fs' = true ∧ spared D w {| fs := fs'; trace := trace w |}.
Proof.
  intros Hok Hrm Hm Hb. unfold remove in Hrm.
  destruct (ls (fs w) !! path) as [names|] eqn:Hls; [|done].
  destruct (bool_decide (name ∈ names) && _) eqn:Hc; [|done].
  apply andb_true_iff in Hc as [Hin%bool_decide_eq_true _].
  injection Hrm as <-. split.
  - apply names_ok_spec. intros p ns n. simpl.
    destruct (decide (path = p)) as [<-|Hne].
    + rewrite lookup_insert_eq. intros [= <-] Hn%filter_subseteq.
      eapply names_ok_spec; eauto.
    + rewrite lookup_insert_ne by done. by apply names_ok_spec.
  - split; simpl.
    + exists []. by rewrite app_nil_r.
    + intros q Hq. rewrite lookup_insert_ne; [done|]. congruence.
    + intros q Hq Hn. rewrite lookup_delete_ne; [done|]. intros <-.
      apply beneath_join_inv in Hq as [->|?]; [|congruence|].
      * specialize (Hn name eq_refl). congruence.
      * eapply names_ok_spec; eauto.
    + intros ns HD. destruct (decide (path = D)) as [->|Hne].
      * rewrite lookup_insert_eq. eexists. split; [done|].
        assert (ns = names) as -> by congruence.
        split; [by apply ordinary_remove | apply filter_subseteq].
      * rewrite lookup_insert_ne by done. by exists ns.
Qed.

(** Writing the record of a directory that is neither [D] nor beneath it. *)
Lemma save_spared (w : world) (path rule_path : string) (tags : gmap string string)
    (fz : gmap string json) (fs' : filesystem) :
  names_ok (fs w) = true →
  save_frozen (fs w) path rule_path tags fz = Some fs' →
  path ≠ D → beneath D path = false →
  names_ok fs' = true ∧ spared D w {| fs := fs'; trace := trace w |}.
Proof.
  intros Hok Hsv Hne Hb. unfold save_frozen, write_json in Hsv.
  destruct (ls (fs w) !! path) as [names|] eqn:Hls; [|done].
  destruct (isdir (fs w) (join path FROZENFILE)); [done|].
  injection Hsv as <-. split.
  - apply names_ok_spec. intros p ns n. simpl.
    destruct (decide (path = p)) as [<-|Hnp].
    + rewrite lookup_insert_eq. intros [= <-] Hn.
      case_bool_decide.
      * eapply names_ok_spec; eauto.
      * apply elem_of_app in Hn as [Hn|Hn%list_elem_of_singleton].
        -- eapply names_ok_spec; eauto.
        -- by subst n.
    + rewrite lookup_insert_ne by done. by apply names_ok_spec.
  - split; simpl.
    + exists []. by rewrite app_nil_r.
    + intros q Hq. rewrite lookup_insert_ne; [done|]. congruence.
    + intros q Hq Hn. rewrite lookup_insert_ne; [done|]. intros <-.
      apply beneath_join_inv in Hq as [->|?]; [done|congruence|done].
    + intros ns HD. rewrite lookup_insert_ne by done. by exists ns.
Qed.

End Frames.

(** ** What one directory adds *)

Section Grows.

Context (env : environ) (s3 : service).

Lemma for_body_step (fs : filesystem) (path : string) (tags : gmap string string)
    (acc : locals * list event) (file : string) :
  let acc' := for_body env s3 fs path tags acc file in
  (directories acc'.1 = directories acc.1
   ∨ directories acc'.1 = directories acc.1 ++ [join path file])
  ∧ (acc'.2 = acc.2
     ∨ ∃ e, acc'.2 = acc.2 ++ [e] ∧ file_abs_path e = join path file)
  ∧ (state acc.1 = false → state acc'.1 = false).
Proof.
  destruct acc as [L tr]. unfold for_body. simpl.
  destruct (Str.startswith file ".") eqn:Hv; [by auto|].
  destruct (isdir fs (join path file)); [simpl; by auto|].
  rewrite (tag_file_cases env s3 path tags file L tr Hv). simpl.
  destruct (tags_eq _ _ && _); [by auto|].
  destruct (s3 _ _); simpl; (split; [by left|]); (split; [|done]); right; by eexists.
Qed.

Lemma for_loop_grows (fs : filesystem) (path : string) (tags : gmap string string)
    (L : locals) (tr : list event) (names : list string) :
  let acc' := foldl (for_body env s3 fs path tags) (L, tr) names in
  (∃ ds, directories acc'.1 = directories L ++ ds
         ∧ Forall (λ d, ∃ n, n ∈ names ∧ d = join path n) ds)
  ∧ (∃ evs, acc'.2 = tr ++ evs
            ∧ Forall (λ e, ∃ n, n ∈ names ∧ file_abs_path e = join path n) evs)
  ∧ (state L = false → state acc'.1 = false).
Proof.
  apply (foldl_invariant (for_body env s3 fs path tags)
    (λ seen acc',
      (∃ ds, directories acc'.1 = directories L ++ ds
             ∧ Forall (λ d, ∃ n, n ∈ seen ∧ d = join path n) ds)
      ∧ (∃ evs, acc'.2 = tr ++ evs
                ∧ Forall (λ e, ∃ n, n ∈ seen ∧ file_abs_path e = join path n) evs)
      ∧ (state L = false → state acc'.1 = false))).
  - simpl. split; [exists []; by rewrite app_nil_r|].
    split; [exists []; by rewrite app_nil_r|done].
  - intros seen x rest a _ ((ds & Hds & Fds) & (evs & Hevs & Fevs) & Hst).
    assert (∀ (X : Type) (Q : X → string → Prop) (l : list X),
              Forall (λ d, ∃ n, n ∈ seen ∧ Q d n) l →
              Forall (λ d, ∃ n, n ∈ seen ++ [x] ∧ Q d n) l) as Hmono.
    { intros X Q l HF. eapply Forall_impl; [exact HF|]. intros d (n & Hn & HQ).
      exists n. split; [|done]. apply elem_of_app. by left. }
    destruct (for_body_step fs path tags a x) as (Hd & He & Hs).
    split; [|split].
    + destruct Hd as [->| ->].
      * exists ds. split; [done|]. by apply (Hmono _ (λ d n, d = join path n)).
      * exists (ds ++ [join path x]). split; [by rewrite Hds, app_assoc|].
        apply Forall_app. split; [by apply (Hmono _ (λ d n, d = join path n))|].
        apply Forall_singleton. exists x. split; [|done].
        apply elem_of_app. right. by apply list_elem_of_singleton.
    + destruct He as [->|(e & -> & He)].
      * exists evs. split; [done|].
        by apply (Hmono _ (λ e n, file_abs_path e = join path n)).
      * exists (evs ++ [e]). split; [by rewrite Hevs, app_assoc|].
        apply Forall_app.
        split; [by apply (Hmono _ (λ e n, file_abs_path e = join path n))|].
        apply Forall_singleton. exists x. split; [|done].
        apply elem_of_app. right. by apply list_elem_of_singleton.
    + auto.
Qed.

End Grows.

(** ** The walk spares a directory that has a valid record *)

Lemma pop_Some {A : Type} (l rest : list A) (x : A) :
  pop l = Some (rest, x) → l = rest ++ [x].
Proof.
  revert rest. induction l as [|y l IH]; intros rest; simpl; [done|].
  destruct (pop l) as [[init last]|] eqn:Hp.
  - intros [= <- <-]. by rewrite (IH init eq_refl).
  - intros [= <- <-]. destruct l as [|z l]; [done|].
    simpl in Hp. by destruct (pop l) as [[]|].
Qed.

Lemma pop_app {A : Type} (rest : list A) (x : A) : pop (rest ++ [x]) = Some (rest, x).
Proof. induction rest as [|y rest IH]; simpl; [done|]. by rewrite IH. Qed.

Lemma glob_head (fs : filesystem) (path freezefile : string) (rest : list string) :
  glob_freezefiles fs path = freezefile :: rest →
  is_freezefile freezefile = true.
Proof.
  unfold glob_freezefiles. intros H.
  assert (In freezefile (freezefile :: rest)) as Hin by (by left).
  rewrite <- H in Hin. by apply filter_In in Hin as [_ ?].
Qed.

Lemma ordinary_elem (names : list string) (n : string) :
  is_freezefile n = false → n ∈ ordinary names ↔ n ∈ names.
Proof.
  intros Hn. unfold ordinary. rewrite !list_elem_of_In, filter_In.
  rewrite Hn. simpl. tauto.
Qed.

Lemma spared_record (D : string) (w w' : world) (m : gmap string json) :
  spared D w w' → try_load (fs w) D = Some m → try_load (fs w') D = Some m.
Proof.
  intros [_ Hls Hjs Hhere] Hm. unfold try_load in *.
  enough (load_json (fs w') D FROZENFILE = load_json (fs w) D FROZENFILE) as -> by done.
  unfold load_json, listed, isdir in *.
  destruct (ls (fs w) !! D) as [names|] eqn:HD; [|done].
  destruct (Hhere _ eq_refl) as (names' & -> & Ho & _).
  rewrite (Hls _ (beneath_join D FROZENFILE)).
  rewrite (Hjs _ (beneath_join D FROZENFILE)).
  - assert (bool_decide (FROZENFILE ∈ names') = bool_decide (FROZENFILE ∈ names)) as ->; [|done].
    apply bool_decide_ext.
    rewrite <- (ordinary_elem names'), <- (ordinary_elem names) by done.
    by rewrite Ho.
  - by intros n <-%join_inj.
Qed.

Section Spared.

Context (env : environ) (s3 : service) (D : string).

Lemma visit_conflict (path rule_path : string) (tags : gmap string string)
    (L : locals) (w : world) :
  is_Some (try_load (fs w) path) →
  visit env s3 path rule_path tags L w = Return None w.
Proof.
  intros H. unfold visit.
  by rewrite (proj2 (load_frozen_None (fs w) path rule_path L) H).
Qed.

Lemma visit_spared (path rule_path : string) (tags : gmap string string)
    (L : locals) (w : world) :
  names_ok (fs w) = true →
  beneath D path = false → path ≠ D →
  let o := visit env s3 path rule_path tags L w in
  names_ok (fs (final_world o)) = true ∧ spared D w (final_world o)
  ∧ ∀ L' w', o = Return (Some L') w' →
             ∃ ds, directories L' = directories L ++ ds
                   ∧ Forall (λ d, beneath D d = false) ds.
Proof.
  intros Hok Hb Hne. unfold visit.
  destruct (load_frozen _ _ _ _) as [L0|] eqn:Hload.
  2:{ simpl. split; [done|]. split; [apply spared_refl|done]. }
  apply load_frozen_Some in Hload as [_ ->].
  destruct (ls (fs w) !! path) as [names|] eqn:Hls.
  2:{ simpl. split; [done|]. split; [apply spared_refl|done]. }
  pose proof (for_loop_grows env s3 (fs w) path tags
                (set_state false (set_frozen empty_config L)) (trace w) names)
    as ((ds & Hds & Fds) & (evs & Hevs & Fevs) & _).
  destruct (foldl _ _ names) as [L1 tr1]. simpl in Hds, Hevs. subst tr1.
  assert (∀ n, n ∈ names → beneath D (join path n) = false) as Hout.
  { intros n Hn. destruct (beneath D (join path n)) eqn:Hbn; [|done].
    apply beneath_join_inv in Hbn as [?|?]; [done|congruence|].
    eapply names_ok_spec; eauto. }
  assert (spared D w {| fs := fs w; trace := trace w ++ evs |}) as Hreq.
  { apply spared_requests. eapply Forall_impl; [exact Fevs|].
    intros e (n & Hn & ->). by apply Hout. }
  destruct (save_frozen _ _ _ _ _) as [fs'|] eqn:Hsave; simpl.
  - destruct (save_spared D {| fs := fs w; trace := trace w ++ evs |}
                path rule_path tags (frozen L1) fs' Hok Hsave Hne Hb) as [Hok' Hsp].
    split; [done|]. split; [by eapply spared_trans|].
    intros L' w' [= <- <-]. exists ds. split; [done|].
    eapply Forall_impl; [exact Fds|]. intros d (n & Hn & ->). by apply Hout.
  - by split.
Qed.

(** Whatever the bound on the steps and however the run ends, the world
    it leaves has spared [D]. *)
Lemma loop_spared (m : gmap string json) (fuel : nat) :
  ∀ (target_path rule_path : string) (tags : gmap string string)
    (L : locals) (w : world),
  names_ok (fs w) = true →
  try_load (fs w) D = Some m →
  beneath D target_path = false →
  Forall (λ q, beneath D q = false) (directories L) →
  let o := loop env s3 fuel target_path rule_path tags L w in
  names_ok (fs (final_world o)) = true ∧ spared D w (final_world o).
Proof.
  induction fuel as [|fuel IH]; intros target rule tags L w Hok Hm Ht Hd.
  { simpl. split; [done|apply spared_refl]. }
  simpl.
  destruct (pop (directories L)) as [[rest path]|] eqn:Hpop.
  2:{ simpl. split; [done|apply spared_refl]. }
  apply pop_Some in Hpop. rewrite Hpop in Hd.
  apply Forall_app in Hd as [Hrest [Hpath _]%Forall_cons].
  destruct (if bool_decide (path = target) then [] else glob_freezefiles (fs w) path)
    as [|freezefile more] eqn:Hglob.
  - (* the directory is visited *)
    destruct (decide (path = D)) as [->|Hne].
    + rewrite visit_conflict by eauto. simpl. split; [done|apply spared_refl].
    + destruct (visit_spared path rule tags (set_directories rest L) w Hok Hpath Hne)
        as (Hok1 & Hsp1 & Hdirs).
      destruct (visit env s3 path rule tags (set_directories rest L) w)
        as [[L1|] w1|w1|w1]; simpl in Hok1, Hsp1; try done.
      destruct (Hdirs L1 w1 eq_refl) as (ds & Hds & Fds). simpl in Hds.
      destruct (IH target rule tags L1 w1) as [Hok' Hsp']; try done.
      * by eapply spared_record.
      * rewrite Hds. by apply Forall_app.
      * split; [done|]. by eapply spared_trans.
  - (* the directory holds a directive of its own *)
    case_bool_decide; [done|].
    apply glob_head in Hglob as Hmark.
    destruct (parse_freezefile freezefile) as [parsed_tag|].
    2:{ simpl. split; [done|apply spared_refl]. }
    destruct (IH path rule parsed_tag (entry path) w Hok Hm Hpath
                ltac:(by apply Forall_singleton)) as [Hok1 Hsp1].
    destruct (loop env s3 fuel path rule parsed_tag (entry path) w)
      as [ret w1|w1|w1]; simpl in Hok1, Hsp1; try done.
    destruct (remove (fs w1) path freezefile) as [fs2|] eqn:Hrm; [|done].
    destruct (remove_spared D w1 path freezefile fs2 Hok1 Hrm Hmark Hpath)
      as [Hok2 Hsp2].
    destruct (IH target rule tags (merge (set_directories rest L) ret)
                {| fs := fs2; trace := trace w1 |}) as [Hok' Hsp']; try done.
    + eapply spared_record; [exact Hsp2|]. by eapply spared_record.
    + split; [done|]. eapply spared_trans; [exact Hsp1|].
      by eapply spared_trans.
Qed.

End Spared.

(** ** Directive names that do not parse *)

Lemma split_no_sep (sep : ascii) (s : string) :
  Str.has_char sep s = false → Str.split sep s = [s].
Proof.
  induction s as [|c s IH]; simpl; [done|].
  intros [Hc Hs]%orb_false_iff. rewrite Hc. by rewrite (IH Hs).
Qed.

Lemma dict_of_short (kvs : list (list string)) (acc : gmap string string) :
  (∃ x, x ∈ kvs ∧ x !! 1%nat = None) → dict_of kvs acc = None.
Proof.
  revert acc. induction kvs as [|y kvs IH]; intros acc (x & Hx & Hshort).
  - by apply elem_of_nil in Hx.
  - simpl. apply elem_of_cons in Hx as [<-|Hx].
    + rewrite Hshort. by destruct (x !! 0%nat).
    + destruct (y !! 0%nat); [|done]. destruct (y !! 1%nat); [|done].
      apply IH. eauto.
Qed.

(** ** A directory visited from the empty record *)

Lemma affected_files_insert (fz : gmap string json) (items : list json) :
  affected_files (<["affected-files" := JArr items]> fz) = items.
Proof. unfold affected_files. by rewrite lookup_insert_eq. Qed.

Lemma affected_files_saved (rule_path : string) (tags : gmap string string)
    (fz : gmap string json) :
  affected_files (saved_config rule_path tags fz) = affected_files fz.
Proof.
  unfold affected_files, saved_config. by rewrite !lookup_insert_ne.
Qed.

Lemma affected_files_empty_config : affected_files empty_config = [].
Proof. reflexivity. Qed.


Lemma join_ne_self (p n : string) : join p n ≠ p.
Proof.
  intros H. apply (f_equal String.length) in H. unfold join in H.
  rewrite !length_app_str in H. simpl in H. lia.
Qed.

(** Reading back what [save_frozen] wrote. *)
Lemma save_frozen_load (fs fs' : filesystem) (path rule_path : string)
    (tags : gmap string string) (fz : gmap string json) :
  save_frozen fs path rule_path tags fz = Some fs' →
  load_json fs' path FROZENFILE = Some (JObj (saved_config rule_path tags fz)).
Proof.
  unfold save_frozen, write_json.
  destruct (ls fs !! path) as [names|] eqn:Hls; [|done].
  destruct (isdir fs (join path FROZENFILE)) eqn:Hd; [done|].
  intros [= <-]. unfold load_json, listed, isdir in *. simpl.
  rewrite lookup_insert_eq, lookup_insert_ne by (symmetry; apply join_ne_self).
  rewrite Hd. simpl. rewrite lookup_insert_eq.
  rewrite bool_decide_eq_true_2; [done|].
  destruct (bool_decide (FROZENFILE ∈ names)) eqn:Hin.
  - by apply bool_decide_eq_true in Hin.
  - apply elem_of_app. right. apply list_elem_of_here.
Qed.


Section FromEmpty.

Context (env : environ) (s3 : service) (fs : filesystem) (path : string)
        (tags : gmap string string).

(** The directories pushed are the visible sub-directories, in listing
    order. *)
Lemma for_loop_directories (L : locals) (tr : list event) (names : list string) :
  directories (foldl (for_body env s3 fs path tags) (L, tr) names).1
  = directories L
    ++ (join path <$> List.filter
          (λ n, negb (Str.startswith n ".") && isdir fs (join path n)) names).
Proof.
  apply (foldl_invariant (for_body env s3 fs path tags)
    (λ seen acc, directories acc.1 = directories L
       ++ (join path <$> List.filter
             (λ n, negb (Str.startswith n ".") && isdir fs (join path n)) seen))).
  { simpl. by rewrite app_nil_r. }
  intros seen x rest [L1 tr1] _ H. simpl in H.
  rewrite List.filter_app, fmap_app, app_assoc, <- H. simpl.
  unfold for_body. simpl.
  destruct (Str.startswith x ".") eqn:Hv; simpl; [by rewrite app_nil_r|].
  destruct (isdir fs (join path x)) eqn:Hd; simpl; [done|].
  rewrite app_nil_r.
  rewrite (tag_file_cases env s3 path tags x L1 tr1 Hv). simpl.
  destruct (tags_eq _ _ && _); [done|]. by destruct (s3 _ _).
Qed.


(** Starting from no affected file and a listing without repetition, no
    name is recorded twice. *)
Lemma for_loop_affected (L : locals) (tr : list event) (names : list string) :
  affected_files (frozen L) = [] → NoDup names →
  ∃ files,
    affected_files (frozen (foldl (for_body env s3 fs path tags) (L, tr) names).1)
    = JStr <$> files
    ∧ NoDup files ∧ files ⊆ names.
Proof.
  intros H0 Hnd.
  apply (foldl_invariant (for_body env s3 fs path tags)
    (λ seen acc, ∃ files, affected_files (frozen acc.1) = JStr <$> files
                          ∧ NoDup files ∧ files ⊆ seen)).
  { exists []. simpl. rewrite H0. split; [done|]. split; [constructor|done]. }
  intros seen x rest [L1 tr1] Hnames (files & Haff & Hfnd & Hsub). simpl in *.
  assert (x ∉ files) as Hfresh.
  { intros Hx%Hsub. rewrite Hnames in Hnd.
    apply NoDup_app in Hnd as (_ & Hdisj & _).
    apply (Hdisj x Hx). apply list_elem_of_here. }
  assert (files ⊆ seen ++ [x]) as Hsub'.
  { intros n Hn. apply elem_of_app. left. by apply Hsub. }
  unfold for_body. simpl.
  destruct (Str.startswith x ".") eqn:Hv; simpl; [by exists files|].
  destruct (isdir fs (join path x)); simpl; [by exists files|].
  rewrite (tag_file_cases env s3 path tags x L1 tr1 Hv). simpl.
  destruct (tags_eq _ _ && _); simpl; [by exists files|].
  destruct (s3 _ _); simpl; [|by exists files].
  exists (files ++ [x]). rewrite affected_files_insert, Haff, fmap_app.
  split; [done|]. split.
  - apply NoDup_app. split; [done|]. split; [|apply NoDup_singleton].
    intros n Hn ->%list_elem_of_singleton. done.
  - intros n [Hn| ->%list_elem_of_singleton]%elem_of_app.
    + by apply Hsub'.
    + apply elem_of_app. right. apply list_elem_of_here.
Qed.

End FromEmpty.

(** ** What the walk does in general *)

Section General.

Context (env : environ) (s3 : service).

(** Line 96 returns a fresh triple from the whole call, whatever was
    accumulated and whatever is left on the stack. *)
Lemma conflict_returns_fresh_triple (fuel : nat) (target_path rule_path : string)
    (tags : gmap string string) (L : locals) (w : world)
    (rest : list string) (path : string) :
  directories L = rest ++ [path] →
  path = target_path ∨ glob_freezefiles (fs w) path = [] →
  is_Some (try_load (fs w) path) →
  loop env s3 (S fuel) target_path rule_path tags L w = Return (true, [], []) w.
Proof.
  intros HL Hown Hrec. simpl. rewrite HL, pop_app.
  assert ((if bool_decide (path = target_path) then []
           else glob_freezefiles (fs w) path) = []) as ->.
  { destruct Hown as [->| ->]; [by rewrite bool_decide_eq_true_2|].
    by destruct (bool_decide _). }
  by rewrite visit_conflict.
Qed.

(** A record that a visit wrote is rejected by the next load. *)
Lemma persisted_record_is_rejected (path rule_path : string)
    (tags : gmap string string) (L L' : locals) (w w' : world) :
  visit env s3 path rule_path tags L w = Return (Some L') w' →
  try_load (fs w') path = None.
Proof.
  unfold visit. destruct (load_frozen _ _ _ _) as [L0|]; [|done].
  destruct (ls (fs w) !! path) as [names|]; [|done].
  destruct (foldl _ _ names) as [L1 tr1].
  destruct (save_frozen _ _ _ _ _) as [fs'|] eqn:Hsave; [|done].
  intros [= <- <-]. simpl. unfold try_load.
  rewrite (save_frozen_load _ _ _ _ _ _ Hsave).
  by rewrite saved_config_invalid.
Qed.

(** Once cleared, the success flag is false in what the loop returns,
    unless the loop leaves through line 96. *)
Lemma cleared_flag_stays (fuel : nat) :
  ∀ (target_path rule_path : string) (tags : gmap string string)
    (L : locals) (w w' : world) (ret : result),
  state L = false →
  loop env s3 fuel target_path rule_path tags L w = Return ret w' →
  ret.1.1 = false ∨ ret = (true, [], []).
Proof.
  induction fuel as [|fuel IH]; intros target rule tags L w w' ret Hst; [done|].
  simpl. destruct (pop (directories L)) as [[rest path]|].
  2:{ intros [= <- <-]. by left. }
  destruct (if bool_decide (path = target) then [] else glob_freezefiles (fs w) path)
    as [|freezefile more].
  - unfold visit.
    destruct (load_frozen _ _ _ _) as [L0|] eqn:Hload.
    2:{ intros [= <- <-]. by right. }
    apply load_frozen_Some in Hload as [_ ->].
    destruct (ls (fs w) !! path) as [names|]; [|done].
    pose proof (for_loop_grows env s3 (fs w) path tags
                  (set_state false (set_frozen empty_config (set_directories rest L)))
                  (trace w) names) as (_ & _ & Hkeep).
    destruct (foldl _ _ names) as [L1 tr1]. simpl in Hkeep.
    destruct (save_frozen _ _ _ _ _) as [fs'|]; [|done].
    apply IH. by apply Hkeep.
  - destruct (parse_freezefile freezefile) as [parsed_tag|]; [|done].
    destruct (loop env s3 fuel path rule parsed_tag (entry path) w)
      as [inner w1|w1|w1]; try done.
    destruct (remove (fs w1) path freezefile) as [fs2|]; [|done].
    apply IH. simpl. by rewrite Hst.
Qed.

End General.

(** A directory that comes twice among the candidates is selected twice:
    it does not start with its own name followed by the separator. *)
Lemma select_roots_repeats (d : string) : select_roots [d; d] = [d; d].
Proof.
  unfold select_roots. simpl.
  change (Str.startswith d (d +:+ "/")) with (beneath d d).
  by rewrite beneath_irrefl.
Qed.

(** ** The books of one directory *)

Section Books.

Context (env : environ) (s3 : service) (fs : filesystem) (path : string)
        (tags : gmap string string).


End Books.


(** * The specification, statement by statement *)

(** C1 (the code departs from it). [/m/a] has no record and holds the file
    [x.txt] and the directories [b] and [c]; [c] has a valid record. The
    visit of [/m/a] tags [x.txt], clears the success flag and pushes [b]
    and [c]. [c] is popped first and line 96 returns from the whole call:
    the result is [(True, [], [])], [x.txt] is no longer reported, the
    flag is true again, and [b], still on the stack, is never visited. *)
Theorem conflict_return_abandons_the_walk :
  let w := Demo.start Demo.siblings in
  let o := apply_tag Demo.env Demo.always_ok 10 "/m/a" "/m/a" Demo.cold w in
  is_Some (try_load (fs w) "/m/a/c")
  ∧ (∃ w', o = Return (true, [], []) w')
  ∧ requested (trace (final_world o)) = ["/m/a/x.txt"]
  ∧ load_json (fs (final_world o)) "/m/a/b" FROZENFILE = None
  ∧ is_Some (load_json (fs (final_world o)) "/m/a" FROZENFILE).
Proof.
  intros w o. split; [vm_compute; eauto|].
  split; [eexists; vm_compute; reflexivity|].
  split; [vm_compute; reflexivity|].
  split; [vm_compute; reflexivity|].
  vm_compute. eauto.
Qed.

(** C2 (the code departs from it). [/m/a/d] holds the directive
    [.freeze.tier=hot]. The nested call of line 77 is made with the rule
    path of the outer walk: the record written for [/m/a/d] carries the
    tag set of the directive and the [rule-at] of the outer rule, [/m/a],
    not [/m/a/d]. The other parts of the claim hold here: the result is
    merged, the marker is deleted, and [y.txt] is tagged once, with the
    tag set of the directive. *)
Theorem nested_call_keeps_the_outer_rule :
  let w := Demo.start Demo.nested in
  let o := apply_tag Demo.env Demo.always_ok 10 "/m/a" "/m/a" Demo.cold w in
  (∃ w', o = Return (false, ["/m/a/d/y.txt"], []) w')
  ∧ (∃ m, load_json (fs (final_world o)) "/m/a/d" FROZENFILE = Some (JObj m)
          ∧ m !! "rule-at" = Some (JStr "/m/a")
          ∧ m !! "applied-tags" = Some (tags_json Demo.hot))
  ∧ ls (fs (final_world o)) !! "/m/a/d" = Some ["y.txt"; ".frozen"]
  ∧ (TagSet ∘ request) <$> trace (final_world o) = [[("tier", "hot")]].
Proof.
  intros w o. split; [eexists; vm_compute; reflexivity|].
  split; [eexists; vm_compute; repeat split; reflexivity|].
  split; vm_compute; reflexivity.
Qed.

(** C3 (the code departs from it). One directory with one file. The
    first run tags the file and writes a record whose [rule-at] is a
    string; [CONFIG_SCHEMA] asks for an object there, so the second run
    rejects the record, starts from the empty one and tags the file
    again. *)
Theorem second_run_tags_again :
  let w := Demo.start Demo.single in
  let first := apply_tag Demo.env Demo.always_ok 10 "/m/a" "/m/a" Demo.cold w in
  let w1 := Demo.start (fs (final_world first)) in
  let second := apply_tag Demo.env Demo.always_ok 10 "/m/a" "/m/a" Demo.cold w1 in
  (∃ w', first = Return (false, ["/m/a/x.txt"], []) w')
  ∧ (∃ m, load_json (fs w1) "/m/a" FROZENFILE = Some (JObj m)
          ∧ m !! "rule-at" = Some (JStr "/m/a")
          ∧ m !! "applied-tags" = Some (tags_json Demo.cold)
          ∧ affected_files m = [JStr "x.txt"])
  ∧ try_load (fs w1) "/m/a" = None
  ∧ (∃ w', second = Return (false, ["/m/a/x.txt"], []) w')
  ∧ requested (trace (final_world second)) = ["/m/a/x.txt"].
Proof.
  intros w first w1 second. split; [eexists; vm_compute; reflexivity|].
  split; [eexists; vm_compute; repeat split; reflexivity|].
  split; [vm_compute; reflexivity|].
  split; [eexists; vm_compute; reflexivity|].
  vm_compute. reflexivity.
Qed.

(** C5 (the code departs from it). In [/m/a] the request for [f] fails
    and the one for [g] succeeds; the record of [/m/a] then lists [g] and
    not [f], as claimed. The directory [c], pushed by the same visit, has
    a valid record: line 96 returns [(True, [], [])], and the path of [f]
    is not in the failed list of the result. *)
Theorem conflict_return_drops_the_failed_list :
  let w := Demo.start Demo.partial in
  let o := apply_tag Demo.env (Demo.refuses "a/f") 10 "/m/a" "/m/a" Demo.cold w in
  (λ e, (file_abs_path e, ok e)) <$> trace (final_world o)
    = [("/m/a/f", false); ("/m/a/g", true)]
  ∧ (∃ m, load_json (fs (final_world o)) "/m/a" FROZENFILE = Some (JObj m)
          ∧ affected_files m = [JStr "g"])
  ∧ (∃ ret w', o = Return ret w' ∧ ret.2 = [] ∧ "/m/a/f" ∉ ret.2).
Proof.
  intros w o. split; [vm_compute; reflexivity|].
  split; [eexists; vm_compute; split; reflexivity|].
  eexists _, _. split; [vm_compute; reflexivity|]. simpl.
  split; [done|]. apply not_elem_of_nil.
Qed.

(** C8 (the code departs from it). [/m/a] holds two directives. It is
    listed twice among the candidates and the test of line 149 only looks
    for a root strictly above: [/m/a] is selected twice, [apply_tag] runs
    once for each directive, and both markers are gone after one pass. *)
Theorem root_with_two_directives_is_selected_twice :
  let w := Demo.start Demo.twice in
  let o := main Demo.env Demo.always_ok 10 w in
  glob_freezefiles (fs w) "/m/a" = [".freeze.tier=cold"; ".freeze.tier=hot"]
  ∧ tgt_folders <$> rglob_freezefiles 10 (fs w) "/m" = Some ["/m/a"; "/m/a"]
  ∧ (∃ w', o = Return ["Freezing path /m/a Failed"; "Freezing path /m/a Failed"] w')
  ∧ glob_freezefiles (fs (final_world o)) "/m/a" = []
  ∧ (TagSet ∘ request) <$> trace (final_world o)
    = [[("tier", "cold")]; [("tier", "hot")]].
Proof.
  intros w o. split; [vm_compute; reflexivity|].
  split; [vm_compute; reflexivity|].
  split; [eexists; vm_compute; reflexivity|].
  split; vm_compute; reflexivity.
Qed.

(** C4 (amended). A directory [D] with a valid record whose [rule-at] is
    not the rule path of the walk, beneath the target of [apply_tag]: the
    record of [D] stays as it is, no request is sent for a file beneath
    [D], and no listing and no file beneath [D] changes, except that
    directive markers lying directly in [D] may be deleted. This holds of
    the world the run leaves whatever the bound on its steps, and whether
    it returns, raises or is cut short. *)
Theorem foreign_directory_is_spared (env : environ) (s3 : service) (fuel : nat)
    (target_path rule_path : string) (tags : gmap string string) (w : world)
    (D : string) (m : gmap string json) (R1 : json) :
  names_ok (fs w) = true →
  try_load (fs w) D = Some m →
  m !! "rule-at" = Some R1 →
  R1 ≠ JStr rule_path →
  beneath target_path D = true →
  let w' := final_world (apply_tag env s3 fuel target_path rule_path tags w) in
  try_load (fs w') D = Some m
  ∧ json_at (fs w') !! join D FROZENFILE = json_at (fs w) !! join D FROZENFILE
  ∧ spared D w w'.
Proof.
  intros Hok Hm _ _ Hb w'.
  destruct (loop_spared env s3 D m fuel target_path rule_path tags
              (entry target_path) w) as [_ Hsp]; try done.
  - by apply beneath_asym.
  - apply Forall_singleton. by apply beneath_asym.
  - fold (apply_tag env s3 fuel target_path rule_path tags w) in Hsp. fold w' in Hsp.
    split; [by eapply spared_record|]. split; [|done].
    apply (spared_json D w w' Hsp); [apply beneath_join|].
    by intros n <-%join_inj.
Qed.

Lemma foreign_directory_is_spared_witness :
  let w := Demo.start Demo.owned in
  let w' := final_world
              (apply_tag Demo.env Demo.always_ok 10 "/m/a" "/m/a" Demo.cold w) in
  (∃ ret, apply_tag Demo.env Demo.always_ok 10 "/m/a" "/m/a" Demo.cold w = Return ret w')
  ∧ try_load (fs w') "/m/a/d" = Some Demo.foreign_fields
  ∧ json_at (fs w') !! join "/m/a/d" FROZENFILE
    = json_at (fs w) !! join "/m/a/d" FROZENFILE
  ∧ spared "/m/a/d" w w'.
Proof.
  intros w w'. split; [eexists; vm_compute; reflexivity|].
  apply (foreign_directory_is_spared Demo.env Demo.always_ok 10 "/m/a" "/m/a"
           Demo.cold w "/m/a/d" Demo.foreign_fields
           (JObj {[ "path" := JStr "/m/other" ]})).
  - vm_compute. reflexivity.
  - vm_compute. reflexivity.
  - vm_compute. reflexivity.
  - discriminate.
  - vm_compute. reflexivity.
Defined.

Lemma directive_in_foreign_directory_is_deleted :
  let w := Demo.start Demo.owned in
  let o := apply_tag Demo.env Demo.always_ok 10 "/m/a" "/m/a" Demo.cold w in
  try_load (fs w) "/m/a/d" = Some Demo.foreign_fields
  ∧ Demo.foreign_fields !! "rule-at" ≠ Some (JStr "/m/a")
  ∧ beneath "/m/a" "/m/a/d" = true
  ∧ (∃ ret w', o = Return ret w')
  ∧ ls (fs w) !! "/m/a/d" = Some [".freeze.tier=hot"; ".frozen"; "z.txt"]
  ∧ ls (fs (final_world o)) !! "/m/a/d" = Some [".frozen"; "z.txt"].
Proof.
  intros w o. split; [vm_compute; reflexivity|].
  split; [vm_compute; discriminate|].
  split; [vm_compute; reflexivity|].
  split; [|split; vm_compute; reflexivity].
  eexists _, _. vm_compute. reflexivity.
Qed.



(** C9. Every record [apply_tag] writes, for a directory whose listing
    has no name twice, has no name twice in [affected-files]: the names
    are those of files of the directory that were tagged in this visit, in
    listing order, whatever the record read before held. *)
Theorem persisted_names_are_distinct (env : environ) (s3 : service)
    (path rule_path : string) (tags : gmap string string)
    (L L' : locals) (w w' : world) (names : list string) :
  ls (fs w) !! path = Some names →
  NoDup names →
  visit env s3 path rule_path tags L w = Return (Some L') w' →
  ∃ m files,
    load_json (fs w') path FROZENFILE = Some (JObj m)
    ∧ json_at (fs w') !! join path FROZENFILE = Some (JObj m)
    ∧ affected_files m = JStr <$> files
    ∧ NoDup files
    ∧ files ⊆ names.
Proof.
  intros Hls Hnd Hvisit. unfold visit in Hvisit.
  destruct (load_frozen _ _ _ _) as [L0|] eqn:Hload; [|done].
  apply load_frozen_Some in Hload as [_ ->]. rewrite Hls in Hvisit.
  destruct (for_loop_affected env s3 (fs w) path tags
              (set_state false (set_frozen empty_config L)) (trace w) names)
    as (files & Haff & Hfnd & Hsub); [done|done|].
  destruct (foldl _ _ names) as [L1 tr1]. simpl in Haff.
  destruct (save_frozen _ _ _ _ _) as [fs'|] eqn:Hsave; [|done].
  injection Hvisit as <- <-. simpl.
  exists (saved_config rule_path tags (frozen L1)), files.
  pose proof (save_frozen_load _ _ _ _ _ _ Hsave) as Hread.
  split; [done|]. split.
  { unfold load_json in Hread. by destruct (_ && _). }
  by rewrite affected_files_saved.
Qed.

Lemma persisted_names_are_distinct_witness :
  let w := Demo.start Demo.rerun in
  let o := visit Demo.env Demo.always_ok "/m/a" "/m/a" Demo.cold (entry "/m/a") w in
  ∃ L' w', o = Return (Some L') w'
  ∧ ∃ m files,
    load_json (fs w') "/m/a" FROZENFILE = Some (JObj m)
    ∧ json_at (fs w') !! join "/m/a" FROZENFILE = Some (JObj m)
    ∧ affected_files m = JStr <$> files
    ∧ NoDup files
    ∧ files ⊆ [".frozen"; "x.txt"; "y.txt"].
Proof.
  intros w o.
  destruct o as [[L'|] w'|w'|] eqn:Ho; try (vm_compute in Ho; discriminate Ho).
  exists L', w'. split; [reflexivity|].
  apply (persisted_names_are_distinct Demo.env Demo.always_ok "/m/a" "/m/a"
           Demo.cold (entry "/m/a") L' w w' [".frozen"; "x.txt"; "y.txt"]).
  - vm_compute. reflexivity.
  - refine (bool_decide_unpack (NoDup _) _). vm_compute. exact I.
  - exact Ho.
Defined.

(** C7 (amended). A directive marker and the record file begin with a
    dot, so the guard of line 100 skips them before the classification of
    lines 109-115: the locals and the trace are left as they were, no
    request is sent and nothing is added to [affected-files]. An entry
    that does reach the classification is never in the marker class: its
    target tag set is the tag set of the rule and the stored one is
    [applied-tags]. *)
Theorem markers_are_skipped_as_hidden (env : environ) (s3 : service)
    (fs : filesystem) (path : string) (tags : gmap string string)
    (acc : locals * list event) (file : string) :
  (Str.startswith file FREEZEFILE_PREFIX = true ∨ file = FROZENFILE →
   for_body env s3 fs path tags acc file = acc)
  ∧ (Str.startswith file "." = false →
     classify tags (frozen acc.1) file = (tags, frozen acc.1 !!! "applied-tags")).
Proof.
  split.
  - intros H. apply for_body_hidden. destruct H as [H| ->].
    + by apply freezefile_hidden.
    + apply frozenfile_hidden.
  - apply classify_visible.
Qed.

Lemma markers_are_skipped_as_hidden_witness :
  let acc := (set_frozen empty_config (entry "/m/a"), []) in
  (Str.startswith ".freeze.tier=cold" FREEZEFILE_PREFIX = true
   ∧ for_body Demo.env Demo.always_ok Demo.twice "/m/a" Demo.cold acc
       ".freeze.tier=cold" = acc)
  ∧ (Str.startswith "x.txt" "." = false
     ∧ classify Demo.cold (frozen acc.1) "x.txt"
       = (Demo.cold, frozen acc.1 !!! "applied-tags")).
Proof.
  intros acc.
  pose proof (markers_are_skipped_as_hidden Demo.env Demo.always_ok Demo.twice
                "/m/a" Demo.cold acc ".freeze.tier=cold") as [H1 _].
  pose proof (markers_are_skipped_as_hidden Demo.env Demo.always_ok Demo.twice
                "/m/a" Demo.cold acc "x.txt") as [_ H2].
  split; (split; [reflexivity|]).
  - apply H1. left. reflexivity.
  - apply H2. reflexivity.
Defined.

(** C7 as stated fails: for a marker and for the record file, what the
    loop body does is not what the classification step would do. *)
Lemma marker_never_reaches_classification :
  let acc := (set_frozen empty_config (entry "/m/a"), []) in
  let body := for_body Demo.env Demo.always_ok Demo.twice "/m/a" Demo.cold acc in
  let step file := tag_file Demo.env Demo.always_ok "/m/a" Demo.cold file acc.1 acc.2 in
  classify Demo.cold (frozen acc.1) ".freeze.tier=cold"
    = (FREEZEFILE_TAGS, frozen acc.1 !!! "freezefile-tags")
  ∧ requested (step ".freeze.tier=cold").2 = ["/m/a/.freeze.tier=cold"]
  ∧ requested (body ".freeze.tier=cold").2 = []
  ∧ body ".freeze.tier=cold" = acc
  ∧ requested (step ".frozen").2 = ["/m/a/.frozen"]
  ∧ body ".frozen" = acc.
Proof. vm_compute. repeat split; reflexivity. Qed.

(** C10. A directive name with a [;]-delimited segment that holds no [=]
    makes [parse_freezefile] raise; met as a nested directive, the
    exception leaves the call of [apply_tag] that met it, every enclosing
    call, and the driver. *)
Theorem malformed_directive_aborts_the_run (freezefile : string) :
  (∃ segment,
      segment ∈ Str.split ";" (Str.drop (String.length FREEZEFILE_PREFIX) freezefile)
      ∧ Str.has_char "=" segment = false) →
  parse_freezefile freezefile = None
  ∧ (∀ env s3 fuel target_path rule_path tags L w rest path more,
       directories L = rest ++ [path] →
       path ≠ target_path →
       glob_freezefiles (fs w) path = freezefile :: more →
       loop env s3 (S fuel) target_path rule_path tags L w = Raise w)
  ∧ (∀ env s3 fuel target_path rule_path tags L w rest path outer parsed_tag more w',
       directories L = rest ++ [path] →
       path ≠ target_path →
       glob_freezefiles (fs w) path = outer :: more →
       parse_freezefile outer = Some parsed_tag →
       loop env s3 fuel path rule_path parsed_tag (entry path) w = Raise w' →
       loop env s3 (S fuel) target_path rule_path tags L w = Raise w')
  ∧ (∀ env s3 fuel tgt_folder roots sent w outer tag more w',
       glob_freezefiles (fs w) tgt_folder = outer :: more →
       parse_freezefile outer = Some tag →
       apply_tag env s3 fuel tgt_folder tgt_folder tag w = Raise w' →
       run_roots env s3 fuel (tgt_folder :: roots) sent w = Raise w').
Proof.
  intros (segment & Hseg & Hno).
  assert (parse_freezefile freezefile = None) as Hparse.
  { apply dict_of_short. exists [segment]. split; [|done].
    unfold key_values. apply list_elem_of_fmap. exists segment.
    split; [|done]. by rewrite split_no_sep. }
  split; [done|]. split; [|split].
  - intros env s3 fuel target rule tags L w rest path more HL Hne Hglob.
    simpl. rewrite HL, pop_app. rewrite bool_decide_eq_false_2 by done.
    by rewrite Hglob, Hparse.
  - intros env s3 fuel target rule tags L w rest path outer parsed more w'
      HL Hne Hglob Hp Hin.
    simpl. rewrite HL, pop_app. rewrite bool_decide_eq_false_2 by done.
    by rewrite Hglob, Hp, Hin.
  - intros env s3 fuel tgt roots sent w outer tag more w' Hglob Hp Hrun.
    simpl. by rewrite Hglob, Hp, Hrun.
Qed.

Lemma malformed_directive_aborts_the_run_witness :
  parse_freezefile ".freeze.cold" = None
  ∧ (∀ env s3 fuel target_path rule_path tags L w rest path more,
       directories L = rest ++ [path] →
       path ≠ target_path →
       glob_freezefiles (fs w) path = ".freeze.cold" :: more →
       loop env s3 (S fuel) target_path rule_path tags L w = Raise w)
  ∧ (∀ env s3 fuel target_path rule_path tags L w rest path outer parsed_tag more w',
       directories L = rest ++ [path] →
       path ≠ target_path →
       glob_freezefiles (fs w) path = outer :: more →
       parse_freezefile outer = Some parsed_tag →
       loop env s3 fuel path rule_path parsed_tag (entry path) w = Raise w' →
       loop env s3 (S fuel) target_path rule_path tags L w = Raise w')
  ∧ (∀ env s3 fuel tgt_folder roots sent w outer tag more w',
       glob_freezefiles (fs w) tgt_folder = outer :: more →
       parse_freezefile outer = Some tag →
       apply_tag env s3 fuel tgt_folder tgt_folder tag w = Raise w' →
       run_roots env s3 fuel (tgt_folder :: roots) sent w = Raise w').
Proof.
  apply (malformed_directive_aborts_the_run ".freeze.cold").
  exists "cold". split; [|reflexivity].
  vm_compute. apply list_elem_of_here.
Defined.

(** The same on a run: [/m/a/d] holds a directive without [=]; the walk of
    [/m/a] raises when it pops [/m/a/d], and so does the driver. Nothing
    under [/m/a/d] was tagged and the marker of [/m/a] is still there. *)
Example malformed_nested_directive_run :
  let w := Demo.start Demo.malformed in
  apply_tag Demo.env Demo.always_ok 10 "/m/a" "/m/a" Demo.cold w
    = Raise (final_world (apply_tag Demo.env Demo.always_ok 10 "/m/a" "/m/a" Demo.cold w))
  ∧ (∃ w', main Demo.env Demo.always_ok 10 w = Raise w'
           ∧ requested (trace w') = ["/m/a/x.txt"]
           ∧ glob_freezefiles (fs w') "/m/a" = [".freeze.tier=cold"]).
Proof.
  intros w. split; [vm_compute; reflexivity|].
  eexists. split; [vm_compute; reflexivity|].
  split; vm_compute; reflexivity.
Qed.

(** * Further properties of the code *)

(** ** [parse_freezefile] on the names it accepts *)

Lemma drop_app_length (p s : string) : Str.drop (String.length p) (p +:+ s) = s.
Proof. induction p as [|c p IH]; [by destruct s|]. by rewrite app_cons. Qed.

Lemma split_cons_other (sep c : ascii) (s : string) :
  Ascii.eqb c sep = false →
  Str.split sep (String c s)
  = match Str.split sep s with
    | h :: t => String c h :: t
    | [] => [String c EmptyString]
    end.
Proof. intros H. simpl. by rewrite H. Qed.

Lemma split_nonempty (sep : ascii) (s : string) : Str.split sep s ≠ [].
Proof.
  induction s as [|c s IH]; simpl; [done|].
  destruct (Ascii.eqb c sep); [done|]. by destruct (Str.split sep s).
Qed.

(** Splitting sees every separator: a separator in the middle splits the
    pieces of the two sides. *)
Lemma split_app_sep (sep : ascii) (a b : string) :
  Str.split sep (a +:+ String sep b) = Str.split sep a ++ Str.split sep b.
Proof.
  induction a as [|c a IH]; rewrite ?app_cons, ?app_empty; simpl.
  - by rewrite Ascii.eqb_refl.
  - destruct (Ascii.eqb c sep); [by rewrite IH|].
    rewrite IH. destruct (Str.split sep a) eqn:Ha; [|done].
    by apply split_nonempty in Ha.
Qed.

Lemma split_middle (sep : ascii) (a b : string) :
  Str.has_char sep a = false →
  Str.split sep (a +:+ String sep b) = a :: Str.split sep b.
Proof. intros Ha. by rewrite split_app_sep, (split_no_sep sep a Ha). Qed.

Lemma split_snoc (sep : ascii) (a b : string) :
  Str.has_char sep b = false →
  Str.split sep (a +:+ String sep b) = Str.split sep a ++ [b].
Proof. intros Hb. by rewrite split_app_sep, (split_no_sep sep b Hb). Qed.

Lemma split_has_sep (sep : ascii) (s : string) :
  Str.has_char sep s = true → ∃ a b rest, Str.split sep s = a :: b :: rest.
Proof.
  induction s as [|c s IH]; simpl; [done|].
  destruct (Ascii.eqb c sep) eqn:Hc; simpl.
  - intros _. destruct (Str.split sep s) as [|b rest] eqn:Hs.
    + by apply split_nonempty in Hs.
    + by eexists _, _, _.
  - intros (a & b & rest & ->)%IH. by eexists _, _, _.
Qed.

Lemma dict_of_app (l1 l2 : list (list string)) (acc : gmap string string) :
  dict_of (l1 ++ l2) acc = dict_of l1 acc ≫= dict_of l2.
Proof.
  revert acc. induction l1 as [|x l1 IH]; intros acc; simpl; [done|].
  destruct (x !! 0%nat); [|done]. destruct (x !! 1%nat); [|done]. apply IH.
Qed.

Lemma dict_of_long (kvs : list (list string)) (acc : gmap string string) :
  Forall (λ x, is_Some (x !! 1%nat)) kvs → is_Some (dict_of kvs acc).
Proof.
  intros H. revert acc. induction H as [|x kvs [v Hv] _ IH]; intros acc; simpl.
  - eauto.
  - rewrite Hv. destruct x as [|k x]; [done|]. simpl. apply IH.
Qed.

Lemma dict_of_nonempty (kvs : list (list string)) (acc t : gmap string string) :
  dict_of kvs acc = Some t → acc ≠ ∅ ∨ kvs ≠ [] → t ≠ ∅.
Proof.
  revert acc. induction kvs as [|x kvs IH]; intros acc; simpl.
  - intros [= <-] [?|?]; done.
  - destruct (x !! 0%nat) as [k|]; [|done]. destruct (x !! 1%nat) as [v|]; [|done].
    intros H _. apply (IH _ H). left. apply insert_non_empty.
Qed.

(** X1. [parse_freezefile] raises exactly on the names that have a
    [;]-delimited segment without [=]: every other name gives a tag set. *)
Theorem parse_freezefile_raises_iff (freezefile : string) :
  parse_freezefile freezefile = None ↔
  ∃ segment,
    segment ∈ Str.split ";" (Str.drop (String.length FREEZEFILE_PREFIX) freezefile)
    ∧ Str.has_char "=" segment = false.
Proof.
  unfold parse_freezefile, key_values. split.
  - intros Hnone.
    destruct (decide (Forall (λ s, Str.has_char "=" s = true)
                (Str.split ";" (Str.drop (String.length FREEZEFILE_PREFIX) freezefile))))
      as [Hall|Hnot].
    + exfalso. enough (is_Some (dict_of
        (Str.split "=" <$> Str.split ";"
           (Str.drop (String.length FREEZEFILE_PREFIX) freezefile)) ∅)) as [? ?]
        by congruence.
      apply dict_of_long. apply Forall_fmap. eapply Forall_impl; [exact Hall|].
      intros s Hs. apply split_has_sep in Hs as (a & b & rest & Hs).
      unfold compose. rewrite Hs. simpl. by eexists.
    + apply not_Forall_Exists in Hnot; [|intros s; apply _].
      apply Exists_exists in Hnot as (s & Hin & Hs). exists s. split; [done|].
      simpl in Hs. destruct (Str.has_char "=" s); [by destruct Hs|done].
  - intros (s & Hin & Hs). apply dict_of_short. exists [s]. split; [|done].
    apply list_elem_of_fmap. exists s. split; [|done]. by rewrite split_no_sep.
Qed.

(** X2. A tag set that [parse_freezefile] returns is never empty. *)
Theorem parsed_tags_are_not_empty (freezefile : string) (tags : gmap string string) :
  parse_freezefile freezefile = Some tags → tags ≠ ∅.
Proof.
  unfold parse_freezefile, key_values. intros H.
  apply (dict_of_nonempty _ _ _ H). right.
  intros Hnil%fmap_nil_inv. by apply split_nonempty in Hnil.
Qed.

Lemma parsed_tags_are_not_empty_witness :
  parse_freezefile ".freeze.tier=cold;owner=team" = Some {[ "tier" := "cold"; "owner" := "team" ]}
  ∧ ({[ "tier" := "cold"; "owner" := "team" ]} : gmap string string) ≠ ∅.
Proof.
  assert (parse_freezefile ".freeze.tier=cold;owner=team"
          = Some {[ "tier" := "cold"; "owner" := "team" ]}) as H
    by (vm_compute; reflexivity).
  split; [exact H|]. exact (parsed_tags_are_not_empty _ _ H).
Defined.

(** X3. A directive name is read segment by segment, from left to right:
    one [key=value] segment gives the tag set with that one key, and one
    more segment at the end adds its key to the tag set of the name before
    it, replacing the value of a key that was already there. *)
Theorem parse_freezefile_by_segments (body k v : string) :
  Str.has_char ";" k = false → Str.has_char "=" k = false →
  Str.has_char ";" v = false → Str.has_char "=" v = false →
  parse_freezefile (FREEZEFILE_PREFIX +:+ k +:+ "=" +:+ v) = Some {[ k := v ]}
  ∧ parse_freezefile (FREEZEFILE_PREFIX +:+ body +:+ ";" +:+ k +:+ "=" +:+ v)
    = insert k v <$> parse_freezefile (FREEZEFILE_PREFIX +:+ body).
Proof.
  intros Hk1 Hk2 Hv1 Hv2.
  assert (Str.has_char ";" (k +:+ "=" +:+ v) = false) as Hseg.
  { rewrite !has_char_app, Hk1, Hv1. reflexivity. }
  assert (Str.split "=" (k +:+ "=" +:+ v) = [k; v]) as Hkv.
  { change (k +:+ "=" +:+ v) with (k +:+ String "=" v).
    rewrite split_middle by done. by rewrite split_no_sep. }
  unfold parse_freezefile, key_values. rewrite !drop_app_length. split.
  - rewrite split_no_sep by done. simpl. by rewrite Hkv.
  - change (body +:+ ";" +:+ k +:+ "=" +:+ v)
      with (body +:+ String ";" (k +:+ "=" +:+ v)).
    rewrite split_snoc by done. rewrite fmap_app, dict_of_app. simpl.
    rewrite Hkv. simpl. by destruct (dict_of _ _).
Qed.

Lemma parse_freezefile_by_segments_witness :
  parse_freezefile (FREEZEFILE_PREFIX +:+ "tier" +:+ "=" +:+ "hot") = Some {[ "tier" := "hot" ]}
  ∧ parse_freezefile (FREEZEFILE_PREFIX +:+ "tier=cold;owner=team" +:+ ";" +:+ "tier" +:+ "=" +:+ "hot")
    = insert "tier" "hot" <$> parse_freezefile (FREEZEFILE_PREFIX +:+ "tier=cold;owner=team").
Proof.
  apply (parse_freezefile_by_segments "tier=cold;owner=team" "tier" "hot");
    reflexivity.
Defined.

(** X4. Only the text between the first and the second [=] of a segment
    is the value: what follows a second [=] is dropped without an error. *)
Theorem value_ends_at_second_equals (k v junk : string) :
  Str.has_char ";" k = false → Str.has_char "=" k = false →
  Str.has_char ";" v = false → Str.has_char "=" v = false →
  Str.has_char ";" junk = false →
  parse_freezefile (FREEZEFILE_PREFIX +:+ k +:+ "=" +:+ v +:+ "=" +:+ junk)
  = Some {[ k := v ]}.
Proof.
  intros Hk1 Hk2 Hv1 Hv2 Hj.
  unfold parse_freezefile, key_values. rewrite drop_app_length.
  rewrite split_no_sep.
  2:{ rewrite !has_char_app, Hk1, Hv1, Hj. reflexivity. }
  simpl.
  change (k +:+ "=" +:+ v +:+ "=" +:+ junk) with (k +:+ String "=" (v +:+ String "=" junk)).
  rewrite split_middle by done. rewrite split_middle by done. reflexivity.
Qed.

Lemma value_ends_at_second_equals_witness :
  parse_freezefile (FREEZEFILE_PREFIX +:+ "note" +:+ "=" +:+ "a" +:+ "=" +:+ "b=c")
  = Some {[ "note" := "a" ]}.
Proof.
  apply (value_ends_at_second_equals "note" "a" "b=c"); reflexivity.
Defined.

(** ** What [CONFIG_SCHEMA] accepts *)

Lemma validate_spec (instance : json) :
  validate instance = true ↔
  ∃ m rule_at freezefile_tags applied_tags items,
    instance = JObj m
    ∧ m !! "rule-at" = Some (JObj rule_at)
    ∧ m !! "freezefile-tags" = Some (JObj freezefile_tags)
    ∧ m !! "applied-tags" = Some (JObj applied_tags)
    ∧ m !! "affected-files" = Some (JArr items)
    ∧ Forall (λ v, ∃ s, v = JStr s) items.
Proof.
  split.
  - destruct instance as [| | | | |m]; try done.
    unfold validate, property, required. simpl.
    rewrite !andb_true_iff, !bool_decide_eq_true.
    intros [[[[H1 H2] H3] H4] ([r Hr] & [a Ha] & [f Hf] & [z Hz] & _)].
    rewrite Hr in H1. rewrite Hz in H2. rewrite Ha in H3. rewrite Hf in H4.
    destruct r; try done. destruct z; try done.
    destruct a; try done. destruct f; try done.
    unfold is_string_array in H4.
    eexists _, _, _, _, _. repeat (split; [done|]).
    apply Forall_forall. intros v Hv%list_elem_of_In.
    rewrite forallb_forall in H4. specialize (H4 v Hv).
    destruct v; try done. by eexists.
  - intros (m & r & z & a & items & -> & Hr & Hz & Ha & Hf & Hitems).
    unfold validate, property, required. simpl. rewrite Hr, Hz, Ha, Hf. simpl.
    rewrite ?bool_decide_eq_true_2 by eauto. rewrite ?andb_true_r.
    apply forallb_forall. intros v Hv%list_elem_of_In.
    rewrite Forall_forall in Hitems. by destruct (Hitems v Hv) as [s ->].
Qed.

(** X5. [CONFIG_SCHEMA] accepts exactly the objects that have the four
    fields with an object under [rule-at], [freezefile-tags] and
    [applied-tags] and an array of strings under [affected-files]. *)
Theorem validate_accepts_iff (instance : json) :
  validate instance = true ↔
  ∃ m rule_at freezefile_tags applied_tags items,
    instance = JObj m
    ∧ m !! "rule-at" = Some (JObj rule_at)
    ∧ m !! "freezefile-tags" = Some (JObj freezefile_tags)
    ∧ m !! "applied-tags" = Some (JObj applied_tags)
    ∧ m !! "affected-files" = Some (JArr items)
    ∧ Forall (λ v, ∃ s, v = JStr s) items.
Proof. apply validate_spec. Qed.

(** X6. The schema does not close the object: a record that passes still
    passes with any further field added. *)
Theorem validate_ignores_other_fields (m : gmap string json) (key : string) (v : json) :
  validate (JObj m) = true →
  key ∉ ["rule-at"; "applied-tags"; "affected-files"; "freezefile-tags"] →
  validate (JObj (<[key := v]> m)) = true.
Proof.
  intros (m' & r & z & a & items & [= <-] & Hr & Hz & Ha & Hf & Hitems)%validate_spec
    Hkey.
  apply validate_spec. exists (<[key := v]> m), r, z, a, items.
  split; [done|].
  rewrite !lookup_insert_ne; [done|..]; intros ->; apply Hkey; set_solver.
Qed.

Lemma validate_ignores_other_fields_witness :
  validate (JObj Demo.foreign_fields) = true
  ∧ validate (JObj (<["comment" := JStr "kept by hand"]> Demo.foreign_fields)) = true.
Proof.
  assert (validate (JObj Demo.foreign_fields) = true) as H by reflexivity.
  split; [exact H|].
  apply (validate_ignores_other_fields Demo.foreign_fields "comment" _ H).
  intros Hin.
  repeat (apply elem_of_cons in Hin as [Hin|Hin]; [discriminate Hin|]).
  by apply elem_of_nil in Hin.
Defined.

(** ** The driver *)

Lemma insert_by_len_perm (x : string) (l : list string) :
  insert_by_len x l ≡ₚ x :: l.
Proof.
  induction l as [|y l IH]; simpl; [done|].
  destruct (String.length x <=? String.length y)%nat; [done|].
  rewrite IH. apply Permutation_swap.
Qed.

Lemma insert_by_len_sorted (x : string) (l : list string) :
  StronglySorted (λ a b, String.length a ≤ String.length b) l →
  StronglySorted (λ a b, String.length a ≤ String.length b) (insert_by_len x l).
Proof.
  induction 1 as [|y l Hl IH Hy]; simpl.
  - by repeat constructor.
  - destruct (String.length x <=? String.length y)%nat eqn:Hxy.
    + apply Nat.leb_le in Hxy. constructor; [by constructor|].
      constructor; [done|]. eapply Forall_impl; [exact Hy|]. simpl. lia.
    + apply Nat.leb_gt in Hxy. constructor; [done|].
      rewrite insert_by_len_perm. constructor; [lia|done].
Qed.

Lemma insert_by_len_stable (n : nat) (x : string) (l : list string) :
  List.filter (λ s, (String.length s =? n)%nat) (insert_by_len x l)
  = List.filter (λ s, (String.length s =? n)%nat) (x :: l).
Proof.
  induction l as [|y l IH]; simpl; [done|].
  destruct (String.length x <=? String.length y)%nat eqn:Hxy; [done|].
  apply Nat.leb_gt in Hxy. simpl. rewrite IH. simpl.
  destruct (String.length x =? n)%nat eqn:Hx; [|done].
  apply Nat.eqb_eq in Hx.
  by rewrite (proj2 (Nat.eqb_neq (String.length y) n)) by lia.
Qed.

Lemma sorted_by_len_spec (xs : list string) :
  sorted_by_len xs ≡ₚ xs
  ∧ StronglySorted (λ a b, String.length a ≤ String.length b) (sorted_by_len xs)
  ∧ ∀ n, List.filter (λ s, (String.length s =? n)%nat) (sorted_by_len xs)
         = List.filter (λ s, (String.length s =? n)%nat) xs.
Proof.
  unfold sorted_by_len. induction xs as [|x xs (IHp & IHs & IHf)]; simpl.
  - split; [done|]. split; [constructor|done].
  - split; [by rewrite insert_by_len_perm, IHp|].
    split; [by apply insert_by_len_sorted|].
    intros n. rewrite insert_by_len_stable. simpl. by rewrite IHf.
Qed.

(** X7. [sorted(..., key=len)] as the driver uses it: the candidates come
    out rearranged, shortest first, and candidates of the same length
    keep the order [rglob] gave them. *)
Theorem sorted_by_len_sorts (xs : list string) :
  sorted_by_len xs ≡ₚ xs
  ∧ StronglySorted (λ a b, String.length a ≤ String.length b) (sorted_by_len xs)
  ∧ ∀ n, List.filter (λ s, (String.length s =? n)%nat) (sorted_by_len xs)
         = List.filter (λ s, (String.length s =? n)%nat) xs.
Proof. apply sorted_by_len_spec. Qed.

Lemma select_roots_spec (candidates : list string) :
  StronglySorted (λ a b, String.length a ≤ String.length b) candidates →
  let roots := select_roots candidates in
  roots ⊆ candidates
  ∧ (∀ c, c ∈ candidates → c ∈ roots ∨ ∃ r, r ∈ roots ∧ beneath r c = true)
  ∧ (∀ x y, x ∈ roots → y ∈ roots → beneath x y = false).
Proof.
  intros Hsorted. unfold select_roots.
  apply (foldl_invariant
    (λ tgt_folders tgt_folder,
       if existsb (λ x, Str.startswith tgt_folder (x +:+ "/")) tgt_folders
       then tgt_folders else tgt_folders ++ [tgt_folder])
    (λ seen roots,
       roots ⊆ seen
       ∧ (∀ c, c ∈ seen → c ∈ roots ∨ ∃ r, r ∈ roots ∧ beneath r c = true)
       ∧ (∀ x y, x ∈ roots → y ∈ roots → beneath x y = false))).
  { split; [done|]. split.
    - intros c Hc. by apply elem_of_nil in Hc.
    - intros x y Hx. by apply elem_of_nil in Hx. }
  intros seen c rest roots Hcand (Hsub & Hcover & Hfree).
  assert (∀ s, s ∈ seen → String.length s ≤ String.length c) as Hshort.
  { intros s Hs. rewrite Hcand in Hsorted.
    apply (StronglySorted_app_1_elem_of _ _ _ s c Hsorted Hs).
    apply list_elem_of_here. }
  destruct (existsb _ roots) eqn:Hex.
  - apply existsb_exists in Hex as (r & Hr%list_elem_of_In & Hb).
    split; [|split; [|done]].
    + intros x Hx. apply elem_of_app. left. by apply Hsub.
    + intros d [Hd| ->%list_elem_of_singleton]%elem_of_app; [by apply Hcover|].
      right. by exists r.
  - assert (∀ r, r ∈ roots → beneath r c = false) as Hnone.
    { intros r Hr%list_elem_of_In. destruct (beneath r c) eqn:Hb; [|done].
      enough (existsb (λ x, Str.startswith c (x +:+ "/")) roots = true) by congruence.
      apply existsb_exists. by exists r. }
    split; [|split].
    + intros x [Hx| ->%list_elem_of_singleton]%elem_of_app; apply elem_of_app.
      * left. by apply Hsub.
      * right. apply list_elem_of_here.
    + intros d [Hd| ->%list_elem_of_singleton]%elem_of_app.
      * destruct (Hcover d Hd) as [?|(r & ? & ?)].
        -- left. apply elem_of_app. by left.
        -- right. exists r. split; [|done]. apply elem_of_app. by left.
      * left. apply elem_of_app. right. apply list_elem_of_here.
    + intros x y [Hx| ->%list_elem_of_singleton]%elem_of_app
                 [Hy| ->%list_elem_of_singleton]%elem_of_app.
      * by apply Hfree.
      * by apply Hnone.
      * destruct (beneath c y) eqn:Hb; [|done].
        apply beneath_longer in Hb. specialize (Hshort y (Hsub y Hy)). lia.
      * apply beneath_irrefl.
Qed.

(** X8. The roots the driver selects: each is the directory of a directive
    that was found; no root lies beneath another root; and the directory of
    every directive found is a root or lies beneath one. *)
Theorem roots_are_apart_and_cover (freeze_paths : list (string * string)) :
  let roots := tgt_folders freeze_paths in
  (∀ r, r ∈ roots → ∃ name, (r, name) ∈ freeze_paths)
  ∧ (∀ x y, x ∈ roots → y ∈ roots → beneath x y = false)
  ∧ (∀ dir name, (dir, name) ∈ freeze_paths →
                 dir ∈ roots ∨ ∃ r, r ∈ roots ∧ beneath r dir = true).
Proof.
  intros roots. subst roots. unfold tgt_folders.
  destruct (sorted_by_len_spec (freeze_paths.*1)) as (Hperm & Hsorted & _).
  destruct (select_roots_spec _ Hsorted) as (Hsub & Hcover & Hfree).
  split; [|split; [done|]].
  - intros r Hr%Hsub. rewrite Hperm in Hr.
    apply list_elem_of_fmap in Hr as ([d n] & -> & Hin). by exists n.
  - intros dir name Hin. apply Hcover. rewrite Hperm.
    apply list_elem_of_fmap. by exists (dir, name).
Qed.

Lemma roots_are_apart_and_cover_witness :
  let freeze_paths :=
    [("/m/a/d", ".freeze.tier=hot"); ("/m/a", ".freeze.tier=cold");
     ("/m/b", ".freeze.tier=hot")] in
  tgt_folders freeze_paths = ["/m/a"; "/m/b"]
  ∧ (∀ r, r ∈ tgt_folders freeze_paths → ∃ name, (r, name) ∈ freeze_paths)
  ∧ (∀ x y, x ∈ tgt_folders freeze_paths → y ∈ tgt_folders freeze_paths →
            beneath x y = false)
  ∧ (∀ dir name, (dir, name) ∈ freeze_paths →
                 dir ∈ tgt_folders freeze_paths
                 ∨ ∃ r, r ∈ tgt_folders freeze_paths ∧ beneath r dir = true).
Proof.
  intros freeze_paths. split; [vm_compute; reflexivity|].
  exact (roots_are_apart_and_cover freeze_paths).
Defined.

Lemma length_take (n : nat) (s : string) :
  String.length (Str.take n s) = n `min` String.length s.
Proof.
  revert s. induction n as [|n IH]; intros [|c s]; simpl; try done.
  by rewrite IH.
Qed.

(** X9. The text sent to the chat is at most 4024 characters long,
    however long the path is, and a path of at most 4000 characters is
    given in full. *)
Theorem message_is_bounded (tgt_folder : string) (state : bool) :
  String.length (message tgt_folder state) ≤ 4024
  ∧ (String.length tgt_folder ≤ 4000 →
     message tgt_folder state
     = "Freezing path " +:+ tgt_folder +:+ " "
       +:+ (if state then "Succeeded" else "Failed")).
Proof.
  unfold message. split.
  - rewrite !length_app_str.
    destruct (String.length tgt_folder <=? 4000)%nat eqn:Hlen.
    + apply Nat.leb_le in Hlen. destruct state; cbn [String.length]; lia.
    + rewrite length_app_str, length_take.
      pose proof (Nat.le_min_l 3997 (String.length tgt_folder)).
      destruct state; cbn [String.length]; lia.
  - intros Hlen%Nat.leb_le. by rewrite Hlen.
Qed.

Lemma message_is_bounded_witness :
  String.length (message "/m/a" true) ≤ 4024
  ∧ (String.length "/m/a" ≤ 4000 ∧
     message "/m/a" true = "Freezing path " +:+ "/m/a" +:+ " " +:+ "Succeeded").
Proof.
  destruct (message_is_bounded "/m/a" true) as [Hb Hfull].
  split; [exact Hb|].
  assert (String.length "/m/a" ≤ 4000) as Hlen by (cbn [String.length]; lia).
  split; [exact Hlen|exact (Hfull Hlen)].
Defined.

Section DriverRuns.

Context (env : environ) (s3 : service).

(** X10. When the driver gets through its roots it has sent one message
    for each of them, in their order, each naming its root. *)
Theorem one_message_per_root (fuel : nat) (roots : list string) :
  ∀ (sent sent' : list string) (w w' : world),
  run_roots env s3 fuel roots sent w = Return sent' w' →
  ∃ states, length states = length roots
            ∧ sent' = sent ++ zip_with message roots states.
Proof.
  induction roots as [|r roots IH]; intros sent sent' w w'; simpl.
  - intros [= <- <-]. exists []. by rewrite app_nil_r.
  - destruct (glob_freezefiles (fs w) r) as [|freezefile more]; [done|].
    destruct (parse_freezefile freezefile) as [tag|]; [|done].
    destruct (apply_tag env s3 fuel r r tag w) as [ret w1|w1|w1]; try done.
    destruct (remove (fs w1) r freezefile) as [fs2|]; [|done].
    intros (states & Hlen & ->)%IH. exists (ret.1.1 :: states).
    split; [simpl; by rewrite Hlen|]. by rewrite <- app_assoc.
Qed.

End DriverRuns.

Lemma one_message_per_root_witness :
  let w := Demo.start Demo.nested_root in
  let o := run_roots Demo.env Demo.always_ok 10 ["/m/a"] [] w in
  ∃ sent' w', o = Return sent' w'
    ∧ ∃ states, length states = length ["/m/a"]
                ∧ sent' = [] ++ zip_with message ["/m/a"] states.
Proof.
  intros w o.
  destruct o as [sent' w'|w'|w'] eqn:Ho; try (vm_compute in Ho; discriminate Ho).
  exists sent', w'. split; [reflexivity|].
  exact (one_message_per_root Demo.env Demo.always_ok 10 ["/m/a"] [] sent' w w' Ho).
Defined.

(** ** What a walk does to the namespace and what it asks of the service *)

Lemma hidden_not_visible (name : string) :
  Str.startswith name "." = true → visible name = false.
Proof. unfold visible. by intros ->. Qed.

Lemma filter_visible_snoc_frozen (names : list string) :
  List.filter visible (names ++ [FROZENFILE]) = List.filter visible names.
Proof. rewrite List.filter_app. simpl. by rewrite app_nil_r. Qed.

Lemma filter_visible_remove (name : string) (names : list string) :
  is_freezefile name = true →
  List.filter visible (List.filter (λ n, negb (String.eqb n name)) names)
  = List.filter visible names.
Proof.
  intros Hm%freezefile_hidden%hidden_not_visible.
  induction names as [|x names IH]; simpl; [done|].
  destruct (String.eqb x name) eqn:Hx; simpl.
  - apply String.eqb_eq in Hx as ->. by rewrite Hm.
  - by rewrite IH.
Qed.

Lemma walked_refl (w : world) : walked w w.
Proof.
  split.
  - exists []. by rewrite app_nil_r.
  - intros path. destruct (ls (fs w) !! path); [|done]. by auto.
  - by left.
Qed.

Lemma walked_isdir (w w' : world) (p : string) :
  walked w w' → isdir (fs w') p = isdir (fs w) p.
Proof.
  intros [_ Hls _]. specialize (Hls p). unfold isdir.
  destruct (ls (fs w) !! p), (ls (fs w') !! p); try done.
Qed.

Lemma walked_trans (w1 w2 w3 : world) :
  walked w1 w2 → walked w2 w3 → walked w1 w3.
Proof.
  intros H12 H23.
  pose proof H12 as [[e1 [He1 Hf1]] Hl1 Hj1].
  pose proof H23 as [[e2 [He2 Hf2]] Hl2 Hj2]. split.
  - exists (e1 ++ e2). split; [by rewrite He2, He1, app_assoc|].
    apply Forall_app. split; [done|].
    eapply Forall_impl; [exact Hf2|]. simpl.
    intros e (path & names2 & name & Hp & Hn & Hv & Hd & He).
    specialize (Hl1 path). rewrite Hp in Hl1.
    destruct (ls (fs w1) !! path) as [names1|] eqn:Hp1; [|done].
    destruct Hl1 as (Hfilter & _ & _).
    exists path, names1, name. split; [done|]. split.
    { assert (In name (List.filter visible names2)) as Hin
        by (apply filter_In; split; [by apply list_elem_of_In|done]).
      rewrite Hfilter in Hin. apply filter_In in Hin as [Hin _].
      by apply list_elem_of_In. }
    split; [done|]. split; [|done].
    by rewrite <- (walked_isdir w1 w2 _ H12).
  - intros path. specialize (Hl1 path). specialize (Hl2 path).
    destruct (ls (fs w1) !! path) as [n1|], (ls (fs w2) !! path) as [n2|],
      (ls (fs w3) !! path) as [n3|]; try done.
    destruct Hl1 as (F1 & A1 & B1), Hl2 as (F2 & A2 & B2).
    split; [congruence|]. split.
    + intros n [Hn| ->]%A2; [by apply A1|by right].
    + intros n [Hn|Hn]%B1; [by apply B2|by right].
  - intros q. destruct (Hj2 q) as [->|?]; [apply Hj1|by right].
Qed.

Lemma walked_requests (w : world) (evs : list event) :
  Forall (λ e, ∃ path names name,
            ls (fs w) !! path = Some names ∧ name ∈ names ∧ visible name = true
            ∧ isdir (fs w) (join path name) = false
            ∧ file_abs_path e = join path name) evs →
  walked w {| fs := fs w; trace := trace w ++ evs |}.
Proof.
  intros H. split; simpl.
  - by exists evs.
  - intros path. destruct (ls (fs w) !! path); [|done]. by auto.
  - by left.
Qed.

Lemma remove_walked (w : world) (path name : string) (fs' : filesystem) :
  remove (fs w) path name = Some fs' →
  is_freezefile name = true →
  walked w {| fs := fs'; trace := trace w |}.
Proof.
  intros Hrm Hm. unfold remove in Hrm.
  destruct (ls (fs w) !! path) as [names|] eqn:Hls; [|done].
  destruct (bool_decide (name ∈ names) && _); [|done].
  injection Hrm as <-. split; simpl.
  - exists []. by rewrite app_nil_r.
  - intros p. destruct (decide (path = p)) as [<-|Hne].
    + rewrite lookup_insert_eq, Hls. split; [by apply filter_visible_remove|].
      split.
      * intros n Hn%filter_subseteq. by left.
      * intros n Hn. destruct (String.eqb n name) eqn:Hx.
        -- apply String.eqb_eq in Hx as ->. by right.
        -- left. apply list_elem_of_In, filter_In.
           split; [by apply list_elem_of_In|by rewrite Hx].
    + rewrite lookup_insert_ne by done.
      destruct (ls (fs w) !! p); [|done]. by auto.
  - intros q. destruct (decide (join path name = q)) as [<-|Hne].
    + right. exists path, name. by auto.
    + left. by rewrite lookup_delete_ne.
Qed.

Lemma save_walked (w : world) (path rule_path : string) (tags : gmap string string)
    (fz : gmap string json) (fs' : filesystem) :
  save_frozen (fs w) path rule_path tags fz = Some fs' →
  walked w {| fs := fs'; trace := trace w |}.
Proof.
  intros Hsv. unfold save_frozen, write_json in Hsv.
  destruct (ls (fs w) !! path) as [names|] eqn:Hls; [|done].
  destruct (isdir (fs w) (join path FROZENFILE)); [done|].
  injection Hsv as <-. split; simpl.
  - exists []. by rewrite app_nil_r.
  - intros p. destruct (decide (path = p)) as [<-|Hne].
    + rewrite lookup_insert_eq, Hls. case_bool_decide; [by auto|].
      split; [apply filter_visible_snoc_frozen|]. split.
      * intros n [Hn| ->%list_elem_of_singleton]%elem_of_app; by auto.
      * intros n Hn. left. apply elem_of_app. by left.
    + rewrite lookup_insert_ne by done.
      destruct (ls (fs w) !! p); [|done]. by auto.
  - intros q. destruct (decide (join path FROZENFILE = q)) as [<-|Hne].
    + right. exists path, FROZENFILE. by auto.
    + left. by rewrite lookup_insert_ne.
Qed.

Section Walked.

Context (env : environ) (s3 : service).

(** The [for] loop in full: which requests it sends, and how the lists
    and the flag follow from their outcomes. *)
Lemma for_loop_reports (fs : filesystem) (path : string) (tags : gmap string string)
    (L : locals) (tr : list event) (names : list string) :
  let acc := foldl (for_body env s3 fs path tags) (L, tr) names in
  ∃ evs,
    acc.2 = tr ++ evs
    ∧ Forall (λ e, ∃ name, name ∈ names ∧ visible name = true
                           ∧ isdir fs (join path name) = false
                           ∧ file_abs_path e = join path name) evs
    ∧ processed_files acc.1 = processed_files L ++ requested (List.filter ok evs)
    ∧ failed_files acc.1
      = failed_files L ++ requested (List.filter (λ e, negb (ok e)) evs)
    ∧ state acc.1 = state L && forallb ok evs.
Proof.
  apply (foldl_invariant (for_body env s3 fs path tags)
    (λ seen acc, ∃ evs,
       acc.2 = tr ++ evs
       ∧ Forall (λ e, ∃ name, name ∈ seen ∧ visible name = true
                              ∧ isdir fs (join path name) = false
                              ∧ file_abs_path e = join path name) evs
       ∧ processed_files acc.1 = processed_files L ++ requested (List.filter ok evs)
       ∧ failed_files acc.1
         = failed_files L ++ requested (List.filter (λ e, negb (ok e)) evs)
       ∧ state acc.1 = state L && forallb ok evs)).
  { exists []. simpl. by rewrite !app_nil_r, andb_true_r. }
  intros seen x rest [L1 tr1] _ (evs & Htr & Hev & Hproc & Hfail & Hst).
  simpl in *. subst tr1.
  assert (Forall (λ e, ∃ name, name ∈ seen ++ [x] ∧ visible name = true
                               ∧ isdir fs (join path name) = false
                               ∧ file_abs_path e = join path name) evs) as Hev'.
  { eapply Forall_impl; [exact Hev|]. intros e (n & Hn & ?).
    exists n. split; [|done]. apply elem_of_app. by left. }
  unfold for_body. simpl.
  destruct (Str.startswith x ".") eqn:Hv; simpl; [by exists evs|].
  destruct (isdir fs (join path x)) eqn:Hd; simpl; [by exists evs|].
  rewrite (tag_file_cases env s3 path tags x L1 (tr ++ evs) Hv). simpl.
  destruct (tags_eq _ _ && _); simpl; [by exists evs|].
  assert (∀ b, Forall (λ e, ∃ name, name ∈ seen ++ [x] ∧ visible name = true
                                    ∧ isdir fs (join path name) = false
                                    ∧ file_abs_path e = join path name)
                 (evs ++ [{| file_abs_path := join path x;
                    request := tagging_request env tags (join path x); ok := b |}]))
    as Hall.
  { intros b. apply Forall_app. split; [done|]. apply Forall_singleton.
    exists x. split; [apply elem_of_app; right; apply list_elem_of_here|].
    unfold visible. by rewrite Hv. }
  destruct (s3 _ _); simpl; eexists (evs ++ [_]);
    (split; [by rewrite app_assoc|]); (split; [apply Hall|]);
    rewrite !List.filter_app, forallb_app; simpl;
    unfold requested in *; rewrite !fmap_app; simpl; rewrite ?app_nil_r.
  - split; [by rewrite Hproc, app_assoc|]. split; [done|].
    by rewrite Hst, andb_true_r.
  - split; [done|]. split; [by rewrite Hfail, app_assoc|].
    by rewrite !andb_false_r.
Qed.

Lemma visit_walked (path rule_path : string) (tags : gmap string string)
    (L : locals) (w : world) :
  walked w (final_world (visit env s3 path rule_path tags L w)).
Proof.
  unfold visit.
  destruct (load_frozen _ _ _ _) as [L0|]; [|apply walked_refl].
  destruct (ls (fs w) !! path) as [names|] eqn:Hls; [|apply walked_refl].
  destruct (for_loop_reports (fs w) path tags L0 (trace w) names)
    as (evs & Htr & Hev & _).
  destruct (foldl _ _ names) as [L1 tr1]. simpl in Htr. subst tr1.
  assert (walked w {| fs := fs w; trace := trace w ++ evs |}) as Hreq.
  { apply walked_requests. eapply Forall_impl; [exact Hev|].
    intros e (n & ? & ? & ? & ?). by exists path, names, n. }
  destruct (save_frozen _ _ _ _ _) as [fs'|] eqn:Hsave; simpl; [|done].
  eapply walked_trans; [exact Hreq|].
  by apply (save_walked {| fs := fs w; trace := trace w ++ evs |}
              path rule_path tags (frozen L1)).
Qed.

Lemma loop_walked (fuel : nat) :
  ∀ (target_path rule_path : string) (tags : gmap string string)
    (L : locals) (w : world),
  walked w (final_world (loop env s3 fuel target_path rule_path tags L w)).
Proof.
  induction fuel as [|fuel IH]; intros target rule tags L w; [apply walked_refl|].
  simpl. destruct (pop (directories L)) as [[rest path]|]; [|apply walked_refl].
  destruct (if bool_decide (path = target) then [] else glob_freezefiles (fs w) path)
    as [|freezefile more] eqn:Hglob.
  - pose proof (visit_walked path rule tags (set_directories rest L) w) as Hv.
    destruct (visit env s3 path rule tags (set_directories rest L) w)
      as [[L1|] w1|w1|w1]; simpl in Hv; try done.
    eapply walked_trans; [exact Hv|apply IH].
  - case_bool_decide; [done|]. apply glob_head in Hglob as Hmark.
    destruct (parse_freezefile freezefile) as [parsed_tag|]; [|apply walked_refl].
    pose proof (IH path rule parsed_tag (entry path) w) as Hin.
    destruct (loop env s3 fuel path rule parsed_tag (entry path) w)
      as [ret w1|w1|w1]; simpl in Hin; try done.
    destruct (remove (fs w1) path freezefile) as [fs2|] eqn:Hrm; [|done].
    eapply walked_trans; [exact Hin|].
    eapply walked_trans; [by eapply remove_walked|apply IH].
Qed.

(** X11. Whatever the bound on its steps and however it ends, a call of
    [apply_tag] only adds to the requests sent, and each request it adds
    is for an entry that a directory of the namespace lists, whose name
    does not begin with a dot and that is not a directory: no request is
    ever sent for a hidden file, a record, a directive marker or a
    directory. *)
Theorem requests_are_for_visible_files (fuel : nat) (target_path rule_path : string)
    (tags : gmap string string) (w : world) :
  ∃ evs,
    trace (final_world (apply_tag env s3 fuel target_path rule_path tags w))
    = trace w ++ evs
    ∧ ∀ e, e ∈ evs →
           ∃ path names name,
             ls (fs w) !! path = Some names ∧ name ∈ names
             ∧ Str.startswith name "." = false
             ∧ isdir (fs w) (join path name) = false
             ∧ file_abs_path e = join path name.
Proof.
  destruct (loop_walked fuel target_path rule_path tags (entry target_path) w)
    as [(evs & Htr & Hev) _ _].
  exists evs. split; [done|]. intros e He.
  rewrite Forall_forall in Hev.
  destruct (Hev e He) as (p & names & n & ? & ? & Hv & ? & ?).
  exists p, names, n. repeat (split; [done|]). split; [|done].
  unfold visible in Hv. by destruct (Str.startswith n ".").
Qed.

(** X12. Whatever the bound on its steps and however it ends, a call of
    [apply_tag] leaves the directories what they were and every listing
    with the same visible entries in the same order; the only name it adds
    to a listing is the record file, the only names it takes out are
    directive markers, and the only files whose content it changes are
    records and directive markers. *)
Theorem namespace_is_kept (fuel : nat) (target_path rule_path : string)
    (tags : gmap string string) (w : world) :
  let w' := final_world (apply_tag env s3 fuel target_path rule_path tags w) in
  (∀ path, isdir (fs w') path = isdir (fs w) path)
  ∧ (∀ path names names',
       ls (fs w) !! path = Some names → ls (fs w') !! path = Some names' →
       List.filter visible names' = List.filter visible names
       ∧ (∀ n, n ∈ names' → n ∈ names ∨ n = FROZENFILE)
       ∧ (∀ n, n ∈ names → n ∈ names' ∨ is_freezefile n = true))
  ∧ (∀ q, json_at (fs w') !! q ≠ json_at (fs w) !! q →
          ∃ path name, q = join path name
                       ∧ (name = FROZENFILE ∨ is_freezefile name = true)).
Proof.
  intros w'.
  pose proof (loop_walked fuel target_path rule_path tags (entry target_path) w) as H.
  fold (apply_tag env s3 fuel target_path rule_path tags w) in H. fold w' in H.
  split; [intros path; by apply walked_isdir|]. split.
  - intros path names names' Hn Hn'.
    pose proof (walked_ls w w' H path) as Hls. by rewrite Hn, Hn' in Hls.
  - intros q Hq. by destruct (walked_json w w' H q).
Qed.

End Walked.

(** ** What a call reports *)

Section Reports.

Context (env : environ) (s3 : service).

Lemma visit_reports (path rule_path : string) (tags : gmap string string)
    (L L' : locals) (w w' : world) :
  visit env s3 path rule_path tags L w = Return (Some L') w' →
  ∃ evs,
    trace w' = trace w ++ evs
    ∧ processed_files L' = processed_files L ++ requested (List.filter ok evs)
    ∧ failed_files L'
      = failed_files L ++ requested (List.filter (λ e, negb (ok e)) evs)
    ∧ state L' = false.
Proof.
  unfold visit. destruct (load_frozen _ _ _ _) as [L0|] eqn:Hload; [|done].
  apply load_frozen_Some in Hload as [_ ->].
  destruct (ls (fs w) !! path) as [names|]; [|done].
  destruct (for_loop_reports env s3 (fs w) path tags
              (set_state false (set_frozen empty_config L)) (trace w) names)
    as (evs & Htr & _ & Hproc & Hfail & Hst).
  destruct (foldl _ _ names) as [L1 tr1]. simpl in *.
  destruct (save_frozen _ _ _ _ _) as [fs'|]; [|done].
  intros [= <- <-]. by exists evs.
Qed.

Lemma visit_None (path rule_path : string) (tags : gmap string string)
    (L : locals) (w w' : world) :
  visit env s3 path rule_path tags L w = Return None w' → w' = w.
Proof.
  unfold visit. destruct (load_frozen _ _ _ _) as [L0|]; [|by intros [= <-]].
  destruct (ls (fs w) !! path) as [names|]; [|done].
  destruct (foldl _ _ names) as [L1 tr1].
  by destruct (save_frozen _ _ _ _ _).
Qed.

Lemma loop_flag_true (fuel : nat) :
  ∀ (target_path rule_path : string) (tags : gmap string string)
    (L : locals) (w w' : world) (ret : result),
  (state L = true → processed_files L = [] ∧ failed_files L = []) →
  loop env s3 fuel target_path rule_path tags L w = Return ret w' →
  ret.1.1 = true → ret.1.2 = [] ∧ ret.2 = [].
Proof.
  induction fuel as [|fuel IH]; intros target rule tags L w w' ret HL; [done|].
  simpl. destruct (pop (directories L)) as [[rest path]|].
  2:{ intros [= <- <-]. simpl. exact HL. }
  destruct (if bool_decide (path = target) then [] else glob_freezefiles (fs w) path)
    as [|freezefile more].
  - destruct (visit env s3 path rule tags (set_directories rest L) w)
      as [[L1|] w1|w1|w1] eqn:Hv; try done.
    + apply visit_reports in Hv as (evs & _ & _ & _ & Hst).
      apply IH. by rewrite Hst.
    + by intros [= <- <-].
  - destruct (parse_freezefile freezefile) as [parsed_tag|]; [|done].
    destruct (loop env s3 fuel path rule parsed_tag (entry path) w)
      as [inner w1|w1|w1] eqn:Hin; try done.
    destruct (remove (fs w1) path freezefile) as [fs2|]; [|done].
    apply IH. simpl. intros [HsL Hsi]%andb_true_iff.
    destruct (HL HsL) as [-> ->].
    by destruct (IH path rule parsed_tag (entry path) w w1 inner
                   ltac:(done) Hin Hsi) as [-> ->].
Qed.

(** X13. [apply_tag] returns a true flag only together with empty lists:
    every visit that gets to the files of a directory starts from a record
    that did not load, which clears the flag, so a call that reports any
    file, processed or failed, reports failure. *)
Theorem success_reports_no_file (fuel : nat) (target_path rule_path : string)
    (tags : gmap string string) (w w' : world)
    (state : bool) (processed_files failed_files : list string) :
  apply_tag env s3 fuel target_path rule_path tags w
    = Return (state, processed_files, failed_files) w' →
  state = true → processed_files = [] ∧ failed_files = [].
Proof.
  intros Hrun Hst.
  by apply (loop_flag_true fuel target_path rule_path tags (entry target_path)
              w w' (state, processed_files, failed_files)).
Qed.

Lemma loop_reported (fuel : nat) :
  ∀ (target_path rule_path : string) (tags : gmap string string)
    (L : locals) (w w' : world) (ret : result) (base evs0 : list event),
  trace w = base ++ evs0 →
  (∀ p, p ∈ processed_files L → ∃ e, e ∈ evs0 ∧ file_abs_path e = p ∧ ok e = true) →
  (∀ p, p ∈ failed_files L → ∃ e, e ∈ evs0 ∧ file_abs_path e = p ∧ ok e = false) →
  loop env s3 fuel target_path rule_path tags L w = Return ret w' →
  ∃ evs, trace w' = base ++ evs
    ∧ (∀ p, p ∈ ret.1.2 → ∃ e, e ∈ evs ∧ file_abs_path e = p ∧ ok e = true)
    ∧ (∀ p, p ∈ ret.2 → ∃ e, e ∈ evs ∧ file_abs_path e = p ∧ ok e = false).
Proof.
  induction fuel as [|fuel IH];
    intros target rule tags L w w' ret base evs0 Htr Hp Hf; [done|].
  simpl. destruct (pop (directories L)) as [[rest path]|].
  2:{ intros [= <- <-]. by exists evs0. }
  destruct (if bool_decide (path = target) then [] else glob_freezefiles (fs w) path)
    as [|freezefile more].
  - destruct (visit env s3 path rule tags (set_directories rest L) w)
      as [[L1|] w1|w1|w1] eqn:Hv; try done.
    + apply visit_reports in Hv as (evs & Htr1 & Hp1 & Hf1 & _). simpl in *.
      apply (IH target rule tags L1 w1 w' ret base (evs0 ++ evs)).
      * by rewrite Htr1, Htr, app_assoc.
      * intros p. rewrite Hp1. intros [Hin|Hin]%elem_of_app.
        -- destruct (Hp p Hin) as (e & ? & ? & ?). exists e.
           split; [apply elem_of_app; by left|done].
        -- apply list_elem_of_fmap in Hin as (e & -> & Hin).
           apply list_elem_of_In, filter_In in Hin as [Hin%list_elem_of_In Hok].
           exists e. split; [apply elem_of_app; by right|done].
      * intros p. rewrite Hf1. intros [Hin|Hin]%elem_of_app.
        -- destruct (Hf p Hin) as (e & ? & ? & ?). exists e.
           split; [apply elem_of_app; by left|done].
        -- apply list_elem_of_fmap in Hin as (e & -> & Hin).
           apply list_elem_of_In, filter_In in Hin as [Hin%list_elem_of_In Hok].
           exists e. split; [apply elem_of_app; by right|].
           split; [done|]. simpl in Hok. by destruct (ok e).
    + apply visit_None in Hv as ->. intros [= <- <-]. exists evs0.
      split; [done|]. split; intros p Hin; by apply elem_of_nil in Hin.
  - destruct (parse_freezefile freezefile) as [parsed_tag|]; [|done].
    destruct (loop env s3 fuel path rule parsed_tag (entry path) w)
      as [inner w1|w1|w1] eqn:Hin; try done.
    destruct (IH path rule parsed_tag (entry path) w w1 inner (trace w) [])
      as (evs1 & Htr1 & Hp1 & Hf1); try done.
    { by rewrite app_nil_r. }
    { intros p Hx. by apply elem_of_nil in Hx. }
    { intros p Hx. by apply elem_of_nil in Hx. }
    destruct (remove (fs w1) path freezefile) as [fs2|]; [|done].
    apply (IH target rule tags _ _ w' ret base (evs0 ++ evs1)); simpl.
    + by rewrite Htr1, Htr, app_assoc.
    + intros p [Hx|Hx]%elem_of_app.
      * destruct (Hp p Hx) as (e & ? & ? & ?). exists e.
        split; [apply elem_of_app; by left|done].
      * destruct (Hp1 p Hx) as (e & ? & ? & ?). exists e.
        split; [apply elem_of_app; by right|done].
    + intros p [Hx|Hx]%elem_of_app.
      * destruct (Hf p Hx) as (e & ? & ? & ?). exists e.
        split; [apply elem_of_app; by left|done].
      * destruct (Hf1 p Hx) as (e & ? & ? & ?). exists e.
        split; [apply elem_of_app; by right|done].
Qed.

(** X14. What [apply_tag] reports it did ask for: every path in the
    processed list of the result is the file of a request sent during the
    call that went through, and every path in the failed list is the file
    of a request sent during the call that was refused. *)
Theorem reported_files_were_requested (fuel : nat) (target_path rule_path : string)
    (tags : gmap string string) (w w' : world) (ret : result) :
  apply_tag env s3 fuel target_path rule_path tags w = Return ret w' →
  ∃ evs, trace w' = trace w ++ evs
    ∧ (∀ p, p ∈ ret.1.2 → ∃ e, e ∈ evs ∧ file_abs_path e = p ∧ ok e = true)
    ∧ (∀ p, p ∈ ret.2 → ∃ e, e ∈ evs ∧ file_abs_path e = p ∧ ok e = false).
Proof.
  intros Hrun.
  apply (loop_reported fuel target_path rule_path tags (entry target_path)
           w w' ret (trace w) []); try done.
  - by rewrite app_nil_r.
  - intros p Hx. by apply elem_of_nil in Hx.
  - intros p Hx. by apply elem_of_nil in Hx.
Qed.

End Reports.

Lemma success_reports_no_file_witness :
  let w := Demo.start Demo.siblings in
  ∃ w' processed_files failed_files,
    apply_tag Demo.env Demo.always_ok 10 "/m/a" "/m/a" Demo.cold w
      = Return (true, processed_files, failed_files) w'
    ∧ processed_files = [] ∧ failed_files = [].
Proof.
  intros w.
  destruct (apply_tag Demo.env Demo.always_ok 10 "/m/a" "/m/a" Demo.cold w)
    as [[[s p] f] w'|w'|w'] eqn:Ho; try (vm_compute in Ho; discriminate Ho).
  assert (s = true) as -> by (vm_compute in Ho; congruence).
  exists w', p, f. split; [reflexivity|].
  exact (success_reports_no_file Demo.env Demo.always_ok 10 "/m/a" "/m/a"
           Demo.cold w w' true p f Ho eq_refl).
Defined.

Lemma reported_files_were_requested_witness :
  let w := Demo.start Demo.nested in
  ∃ ret w', apply_tag Demo.env Demo.always_ok 10 "/m/a" "/m/a" Demo.cold w = Return ret w'
    ∧ ret.1.2 = ["/m/a/d/y.txt"]
    ∧ ∃ evs, trace w' = trace w ++ evs
      ∧ (∀ p, p ∈ ret.1.2 → ∃ e, e ∈ evs ∧ file_abs_path e = p ∧ ok e = true)
      ∧ (∀ p, p ∈ ret.2 → ∃ e, e ∈ evs ∧ file_abs_path e = p ∧ ok e = false).
Proof.
  intros w.
  destruct (apply_tag Demo.env Demo.always_ok 10 "/m/a" "/m/a" Demo.cold w)
    as [ret w'|w'|w'] eqn:Ho; try (vm_compute in Ho; discriminate Ho).
  exists ret, w'. split; [reflexivity|].
  split; [vm_compute in Ho; by injection Ho as <- _|].
  exact (reported_files_were_requested Demo.env Demo.always_ok 10 "/m/a" "/m/a"
           Demo.cold w w' ret Ho).
Defined.

(** ** The key of a request *)

Lemma replace_go_absent (steps : nat) (old new s : string) :
  Str.contains old s = false → Str.replace_go steps old new s = s.
Proof.
  revert s. induction steps as [|steps IH]; intros s; [done|].
  destruct s as [|c s]; simpl.
  - intros [-> _]%orb_false_iff. done.
  - intros [-> Hs]%orb_false_iff. by rewrite (IH s Hs).
Qed.

(** X15. The key sent for a file below the mount path is its path
    relative to the mount path, as long as that relative path does not
    itself hold the mount path followed by a separator. *)
Theorem key_is_the_relative_path (env : environ) (tags : gmap string string)
    (relative : string) :
  Str.contains (S3_MOUNT_PATH env +:+ "/") relative = false →
  Key (tagging_request env tags (join (S3_MOUNT_PATH env) relative)) = relative.
Proof.
  intros Habsent. unfold tagging_request, join, Str.replace. simpl.
  rewrite <- app_assoc_str.
  rewrite prefix_app, drop_app_length, app_empty.
  by apply replace_go_absent.
Qed.

Lemma key_is_the_relative_path_witness :
  Str.contains (S3_MOUNT_PATH Demo.env +:+ "/") "a/sub/y.txt" = false
  ∧ Key (tagging_request Demo.env Demo.cold (join (S3_MOUNT_PATH Demo.env) "a/sub/y.txt"))
    = "a/sub/y.txt".
Proof.
  split; [reflexivity|].
  apply (key_is_the_relative_path Demo.env Demo.cold "a/sub/y.txt"). reflexivity.
Defined.

(** ** Records and visits *)

(** X16. A call of [apply_tag] on a directory whose record passes the
    schema returns [(True, [], [])] at once and leaves the namespace and
    the trace as they were, whatever the rule path and the tag set are. *)
Theorem valid_record_stops_the_call (env : environ) (s3 : service) (fuel : nat)
    (target_path rule_path : string) (tags : gmap string string) (w : world) :
  is_Some (try_load (fs w) target_path) →
  apply_tag env s3 (S fuel) target_path rule_path tags w = Return (true, [], []) w.
Proof.
  intros Hrec.
  apply (conflict_returns_fresh_triple env s3 fuel target_path rule_path tags
           (entry target_path) w [] target_path); [done|by left|done].
Qed.

Lemma valid_record_stops_the_call_witness :
  let w := Demo.start Demo.siblings in
  is_Some (try_load (fs w) "/m/a/c")
  ∧ apply_tag Demo.env Demo.always_ok 1 "/m/a/c" "/m/a/c" Demo.hot w
    = Return (true, [], []) w.
Proof.
  intros w.
  assert (is_Some (try_load (fs w) "/m/a/c")) as H by (vm_compute; eauto).
  split; [exact H|].
  exact (valid_record_stops_the_call Demo.env Demo.always_ok 0 "/m/a/c" "/m/a/c"
           Demo.hot w H).
Defined.

(** X17. The record a visit writes does not load again: its [rule-at] is
    the rule path, a string, where [CONFIG_SCHEMA] asks for an object. *)
Theorem written_record_does_not_load (env : environ) (s3 : service)
    (path rule_path : string) (tags : gmap string string)
    (L L' : locals) (w w' : world) :
  visit env s3 path rule_path tags L w = Return (Some L') w' →
  ∃ m, load_json (fs w') path FROZENFILE = Some (JObj m)
       ∧ m !! "rule-at" = Some (JStr rule_path)
       ∧ m !! "applied-tags" = Some (tags_json tags)
       ∧ m !! "freezefile-tags" = Some (tags_json FREEZEFILE_TAGS)
       ∧ validate (JObj m) = false
       ∧ try_load (fs w') path = None.
Proof.
  intros Hvisit.
  pose proof (persisted_record_is_rejected env s3 _ _ _ _ _ _ _ Hvisit) as Hrej.
  unfold visit in Hvisit. destruct (load_frozen _ _ _ _) as [L0|]; [|done].
  destruct (ls (fs w) !! path) as [names|]; [|done].
  destruct (foldl _ _ names) as [L1 tr1].
  destruct (save_frozen _ _ _ _ _) as [fs'|] eqn:Hsave; [|done].
  injection Hvisit as <- <-. simpl in *.
  exists (saved_config rule_path tags (frozen L1)).
  split; [by eapply save_frozen_load|].
  split.
  { unfold saved_config.
    rewrite lookup_insert_ne by done. rewrite lookup_insert_ne by done.
    apply lookup_insert_eq. }
  split.
  { unfold saved_config. rewrite lookup_insert_ne by done. apply lookup_insert_eq. }
  split; [unfold saved_config; by rewrite lookup_insert_eq|].
  split; [apply saved_config_invalid|exact Hrej].
Qed.

Lemma written_record_does_not_load_witness :
  let w := Demo.start Demo.single in
  ∃ L' w',
    visit Demo.env Demo.always_ok "/m/a" "/m/a" Demo.cold (entry "/m/a") w
      = Return (Some L') w'
    ∧ ∃ m, load_json (fs w') "/m/a" FROZENFILE = Some (JObj m)
           ∧ m !! "rule-at" = Some (JStr "/m/a")
           ∧ m !! "applied-tags" = Some (tags_json Demo.cold)
           ∧ m !! "freezefile-tags" = Some (tags_json FREEZEFILE_TAGS)
           ∧ validate (JObj m) = false
           ∧ try_load (fs w') "/m/a" = None.
Proof.
  intros w.
  destruct (visit Demo.env Demo.always_ok "/m/a" "/m/a" Demo.cold (entry "/m/a") w)
    as [[L'|] w'|w'|w'] eqn:Ho; try (vm_compute in Ho; discriminate Ho).
  exists L', w'. split; [reflexivity|].
  exact (written_record_does_not_load Demo.env Demo.always_ok "/m/a" "/m/a"
           Demo.cold (entry "/m/a") L' w w' Ho).
Defined.



(** ** The walk ends *)

Lemma filter_and {A : Type} (f g : A → bool) (l : list A) :
  List.filter (λ x, f x && g x) l = List.filter g (List.filter f l).
Proof.
  induction l as [|x l IH]; simpl; [done|].
  destruct (f x); simpl; [|done]. destruct (g x); by rewrite IH.
Qed.

Lemma walked_subdirs (w0 w : world) (path : string) :
  walked w0 w → subdirs (fs w) path = subdirs (fs w0) path.
Proof.
  intros H. unfold subdirs.
  rewrite (filter_and (λ n, negb (Str.startswith n "."))
             (λ n, isdir (fs w) (join path n))).
  rewrite (filter_and (λ n, negb (Str.startswith n "."))
             (λ n, isdir (fs w0) (join path n))).
  pose proof (walked_ls w0 w H path) as Hls.
  destruct (ls (fs w0) !! path) as [names|], (ls (fs w) !! path) as [names'|];
    try done; simpl.
  destruct Hls as [Hvis _]. unfold visible in Hvis. rewrite Hvis.
  f_equal. apply filter_ext. intros n. by apply walked_isdir.
Qed.

Lemma steps_ge_2 (fs : filesystem) (depth : nat) (path : string) :
  2 ≤ steps fs depth path.
Proof. destruct depth; simpl; lia. Qed.

Lemma sum_list_app (l1 l2 : list nat) :
  sum_list (l1 ++ l2) = sum_list l1 + sum_list l2.
Proof. induction l1 as [|x l1 IH]; simpl; [done|]. rewrite IH. lia. Qed.

Lemma shallow_children (fs : filesystem) (depth : nat) (path : string) :
  shallow fs depth path = true →
  ∃ depths,
    Forall2 (λ d p, shallow fs d p = true) depths (subdirs fs path)
    ∧ sum_list (zip_with (steps fs) depths (subdirs fs path)) + 2
      = steps fs depth path.
Proof.
  destruct depth as [|d']; simpl.
  - destruct (subdirs fs path); [|done]. exists []. by split.
  - generalize (subdirs fs path). intros cs Hd.
    exists (replicate (length cs) d').
    induction cs as [|c cs IH]; simpl in *; [by split|].
    apply andb_true_iff in Hd as [Hc Hcs].
    destruct (IH Hcs) as [Hf Hs]. split; [by constructor|].
    change (list_fmap string nat (steps fs d') cs) with (steps fs d' <$> cs).
    lia.
Qed.

Section Ends.

Context (env : environ) (s3 : service).

Lemma visit_finished (path rule_path : string) (tags : gmap string string)
    (L : locals) (w : world) :
  finished (visit env s3 path rule_path tags L w) = true.
Proof.
  unfold visit. destruct (load_frozen _ _ _ _) as [L0|]; [|done].
  destruct (ls (fs w) !! path) as [names|]; [|done].
  destruct (foldl _ _ names) as [L1 tr1].
  by destruct (save_frozen _ _ _ _ _).
Qed.

Lemma visit_directories (path rule_path : string) (tags : gmap string string)
    (L L' : locals) (w w' : world) :
  visit env s3 path rule_path tags L w = Return (Some L') w' →
  directories L' = directories L ++ subdirs (fs w) path.
Proof.
  unfold visit. destruct (load_frozen _ _ _ _) as [L0|] eqn:Hload; [|done].
  apply load_frozen_Some in Hload as [_ ->].
  destruct (ls (fs w) !! path) as [names|] eqn:Hls; [|done].
  pose proof (for_loop_directories env s3 (fs w) path tags
                (set_state false (set_frozen empty_config L)) (trace w) names) as Hd.
  destruct (foldl _ _ names) as [L1 tr1]. simpl in Hd.
  destruct (save_frozen _ _ _ _ _) as [fs'|]; [|done].
  intros [= <- <-]. unfold subdirs. by rewrite Hls.
Qed.

(** The bound on the steps, for the directories on the stack: one more
    step than the sum for the directories, or just the sum when the next
    directory to pop is the target. *)
Lemma loop_finishes (w0 : world) (fuel : nat) :
  ∀ (target_path rule_path : string) (tags : gmap string string)
    (L : locals) (w : world) (depths : list nat),
  walked w0 w →
  Forall2 (λ depth path, shallow (fs w0) depth path = true) depths (directories L) →
  sum_list (zip_with (steps (fs w0)) depths (directories L)) + 1 ≤ fuel
  ∨ (∃ rest, directories L = rest ++ [target_path])
    ∧ sum_list (zip_with (steps (fs w0)) depths (directories L)) ≤ fuel →
  finished (loop env s3 fuel target_path rule_path tags L w) = true.
Proof.
  induction fuel as [|fuel IH]; intros target rule tags L w depths Hw Hsh Hfuel.
  { exfalso. destruct Hfuel as [?|[[rest Hrest] Hle]]; [lia|].
    rewrite Hrest in Hsh, Hle.
    apply Forall2_app_inv_r in Hsh as (d1 & d2 & H1 & Hlast & ->).
    apply Forall2_cons_inv_r in Hlast as (d & dn & Hd & Hnil & ->).
    rewrite zip_with_app in Hle by (by eapply Forall2_length).
    rewrite sum_list_app in Hle. simpl in Hle.
    pose proof (steps_ge_2 (fs w0) d target). lia. }
  simpl. destruct (pop (directories L)) as [[rest path]|] eqn:Hpop; [|done].
  apply pop_Some in Hpop. rewrite Hpop in Hsh, Hfuel.
  apply Forall2_app_inv_r in Hsh as (drest & dlast & Hrest & Hlast & ->).
  apply Forall2_cons_inv_r in Hlast as (d & dnil & Hd & Hnil & ->).
  apply Forall2_nil_inv_r in Hnil as ->.
  rewrite zip_with_app in Hfuel by (by eapply Forall2_length).
  rewrite sum_list_app in Hfuel. simpl in Hfuel.
  pose proof (steps_ge_2 (fs w0) d path) as H2.
  destruct (if bool_decide (path = target) then [] else glob_freezefiles (fs w) path)
    as [|freezefile more] eqn:Hglob.
  - pose proof (visit_finished path rule tags (set_directories rest L) w) as Hfin.
    pose proof (visit_walked env s3 path rule tags (set_directories rest L) w) as Hvw.
    destruct (visit env s3 path rule tags (set_directories rest L) w)
      as [[L1|] w1|w1|w1] eqn:Hv; try done.
    simpl in Hvw.
    apply visit_directories in Hv as Hdirs. simpl in Hdirs.
    rewrite (walked_subdirs w0 w path Hw) in Hdirs.
    destruct (shallow_children (fs w0) d path Hd) as (dsub & Hsub & Hsum).
    apply (IH target rule tags L1 w1 (drest ++ dsub)).
    + by eapply walked_trans.
    + rewrite Hdirs. by apply Forall2_app.
    + left. rewrite Hdirs.
      rewrite zip_with_app by (by eapply Forall2_length).
      rewrite sum_list_app. destruct Hfuel as [?|[_ ?]]; lia.
  - case_bool_decide as Hne; [done|].
    assert (sum_list (zip_with (steps (fs w0)) drest rest) + steps (fs w0) d path
            ≤ fuel) as Hle.
    { destruct Hfuel as [?|[[rest' Hrest'] _]]; [lia|].
      apply app_inj_tail in Hrest' as [_ ->]. done. }
    destruct (parse_freezefile freezefile) as [parsed_tag|]; [|done].
    assert (finished (loop env s3 fuel path rule parsed_tag (entry path) w) = true)
      as Hinner.
    { apply (IH path rule parsed_tag (entry path) w [d]); [done|..].
      - by constructor.
      - right. split; [by exists []|]. simpl. lia. }
    pose proof (loop_walked env s3 fuel path rule parsed_tag (entry path) w) as Hiw.
    destruct (loop env s3 fuel path rule parsed_tag (entry path) w)
      as [ret w1|w1|w1]; try done. simpl in Hiw.
    destruct (remove (fs w1) path freezefile) as [fs2|] eqn:Hrm; [|done].
    apply (IH target rule tags _ _ drest).
    + eapply walked_trans; [exact Hw|]. eapply walked_trans; [exact Hiw|].
      eapply remove_walked; [exact Hrm|]. by eapply glob_head.
    + done.
    + left. simpl. lia.
Qed.

Lemma loop_S (fuel : nat) (target_path rule_path : string)
    (tags : gmap string string) (L : locals) (w : world) :
  loop env s3 (S fuel) target_path rule_path tags L w
  = match pop (directories L) with
    | None => Return (state L, processed_files L, failed_files L) w
    | Some (rest, path) =>
        match (if bool_decide (path = target_path) then []
               else glob_freezefiles (fs w) path) with
        | freezefile :: _ =>
            match parse_freezefile freezefile with
            | None => Raise w
            | Some parsed_tag =>
                match loop env s3 fuel path rule_path parsed_tag (entry path) w with
                | Return ret w' =>
                    match remove (fs w') path freezefile with
                    | Some fs' =>
                        loop env s3 fuel target_path rule_path tags
                          (merge (set_directories rest L) ret)
                          {| fs := fs'; trace := trace w' |}
                    | None => Raise w'
                    end
                | Raise w' => Raise w'
                | OutOfFuel w' => OutOfFuel w'
                end
            end
        | [] =>
            match visit env s3 path rule_path tags (set_directories rest L) w with
            | Return None w' => Return (true, [], []) w'
            | Return (Some L') w' => loop env s3 fuel target_path rule_path tags L' w'
            | Raise w' => Raise w'
            | OutOfFuel w' => OutOfFuel w'
            end
        end
    end.
Proof. reflexivity. Qed.

Lemma loop_more_fuel (fuel : nat) :
  ∀ (target_path rule_path : string) (tags : gmap string string)
    (L : locals) (w : world),
  finished (loop env s3 fuel target_path rule_path tags L w) = true →
  loop env s3 (S fuel) target_path rule_path tags L w
  = loop env s3 fuel target_path rule_path tags L w.
Proof.
  induction fuel as [|fuel IH]; intros target rule tags L w Hfin; [done|].
  rewrite (loop_S (S fuel)), (loop_S fuel). rewrite loop_S in Hfin.
  destruct (pop (directories L)) as [[rest path]|]; [|done].
  destruct (if bool_decide (path = target) then [] else glob_freezefiles (fs w) path)
    as [|freezefile more].
  - destruct (visit env s3 path rule tags (set_directories rest L) w)
      as [[L1|] w1|w1|w1]; try done.
    by apply IH.
  - destruct (parse_freezefile freezefile) as [parsed_tag|]; [|done].
    assert (finished (loop env s3 fuel path rule parsed_tag (entry path) w) = true)
      as Hinner
      by (by destruct (loop env s3 fuel path rule parsed_tag (entry path) w)).
    rewrite (IH path rule parsed_tag (entry path) w Hinner).
    destruct (loop env s3 fuel path rule parsed_tag (entry path) w)
      as [ret w1|w1|w1]; try done.
    destruct (remove (fs w1) path freezefile) as [fs2|]; [|done].
    by apply IH.
Qed.

Lemma loop_any_more_fuel (fuel extra : nat) (target_path rule_path : string)
    (tags : gmap string string) (L : locals) (w : world) :
  finished (loop env s3 fuel target_path rule_path tags L w) = true →
  loop env s3 (fuel + extra) target_path rule_path tags L w
  = loop env s3 fuel target_path rule_path tags L w.
Proof.
  intros Hfin. induction extra as [|extra IH]; [by rewrite Nat.add_0_r|].
  rewrite Nat.add_succ_r, loop_more_fuel; [done|]. by rewrite IH.
Qed.

(** X19. On a namespace whose visible directories below the target are
    nested at most [depth] deep, [apply_tag] ends, by returning or by
    raising, within [steps] steps, and what it does is the same for every
    larger bound on the steps. *)
Theorem apply_tag_ends (depth fuel : nat) (target_path rule_path : string)
    (tags : gmap string string) (w : world) :
  shallow (fs w) depth target_path = true →
  steps (fs w) depth target_path ≤ fuel →
  finished (apply_tag env s3 fuel target_path rule_path tags w) = true
  ∧ apply_tag env s3 fuel target_path rule_path tags w
    = apply_tag env s3 (steps (fs w) depth target_path) target_path rule_path tags w.
Proof.
  intros Hsh Hfuel.
  assert (finished (apply_tag env s3 (steps (fs w) depth target_path)
                      target_path rule_path tags w) = true) as Hfin.
  { apply (loop_finishes w _ target_path rule_path tags (entry target_path) w [depth]).
    - apply walked_refl.
    - by constructor.
    - right. split; [by exists []|]. simpl. lia. }
  replace fuel with (steps (fs w) depth target_path
                     + (fuel - steps (fs w) depth target_path)) by lia.
  unfold apply_tag in *. rewrite loop_any_more_fuel by done. by split.
Qed.

End Ends.

Lemma apply_tag_ends_witness :
  let w := Demo.start Demo.nested_root in
  shallow (fs w) 1 "/m/a" = true
  ∧ steps (fs w) 1 "/m/a" ≤ 10
  ∧ finished (apply_tag Demo.env Demo.always_ok 10 "/m/a" "/m/a" Demo.cold w) = true
  ∧ apply_tag Demo.env Demo.always_ok 10 "/m/a" "/m/a" Demo.cold w
    = apply_tag Demo.env Demo.always_ok (steps (fs w) 1 "/m/a") "/m/a" "/m/a" Demo.cold w.
Proof.
  intros w.
  assert (shallow (fs w) 1 "/m/a" = true) as H1 by reflexivity.
  assert (steps (fs w) 1 "/m/a" ≤ 10) as H2 by (vm_compute; lia).
  split; [exact H1|]. split; [exact H2|].
  exact (apply_tag_ends Demo.env Demo.always_ok 1 10 "/m/a" "/m/a" Demo.cold w H1 H2).
Defined.

(** ** What is sent *)

Section Sent.

Context (env : environ) (s3 : service).



End Sent.
